(** * yaets: a shallow embedding of the tracing library

    The development follows [src/yaets/tracing.cpp] and
    [include/yaets/tracing.hpp]: the trace session with its queue and its
    consumer thread, the scope guard's name extraction, the shared named trace
    (a ring of pending start instants) and the trace registry. *)

From Stdlib Require Import Ascii.
From stdpp Require Import gmap strings list pretty.

Local Open Scope Z_scope.

(** ** Machine integers *)

(** [std::chrono::nanoseconds] counts ticks in a signed 64-bit integer.  A
    difference that leaves the range is undefined in C++; the model writes out
    the two's complement wrap-around of the hardware. *)
Module Int64.
Definition min_signed : Z := - 2 ^ 63.
Definition max_signed : Z := 2 ^ 63 - 1.
Definition in_range (x : Z) : Prop := min_signed <= x <= max_signed.
Definition wrap (x : Z) : Z := (x + 2 ^ 63) mod 2 ^ 64 - 2 ^ 63.
Definition sub (a b : Z) : Z := wrap (a - b).
End Int64.

(** [size_t] is an unsigned 64-bit integer. *)
Module SizeT.
Definition modulus : Z := 2 ^ 64.
Definition in_range (x : Z) : Prop := 0 <= x < modulus.
Definition wrap (x : Z) : Z := x mod modulus.
Definition add (a b : Z) : Z := wrap (a + b).
Definition sub (a b : Z) : Z := wrap (a - b).
End SizeT.

(** ** Streams *)

Definition newline : ascii := ascii_of_nat 10.

(** The text ["\n"] that [trace_consumer] puts after each event.  Unlike
    [std::endl] it does not make the stream write its buffer out. *)
Definition line_feed : string := String newline EmptyString.

(** The first [n] characters of a text and the rest of it. *)
Fixpoint split_at (n : nat) (s : string) : string * string :=
  match n, s with
  | S n', String c s' => let (p, r) := split_at n' s' in (String c p, r)
  | _, _ => (EmptyString, s)
  end.

(** A [std::ofstream], as far as the library uses it.  [contents] is the text
    that the stream has put into the destination file, [buffer] the text that
    it has accepted and not yet written out.  Whether the destination can be opened is the
    answer of the file system; a stream that is not open drops what it is
    given.  What an open stream writes out reaches the file: a device that
    fails after the opening is not part of the model. *)
Record ofstream := mk_ofstream {
  is_open : bool;
  buffer : string;
  contents : string
}.

(** The constructor with a file name: it truncates the destination when it
    can open it. *)
Definition ofstream_open (opened : bool) : ofstream :=
  {| is_open := opened; buffer := ""; contents := "" |}.

(** [<<]: the text goes to the buffer. *)
Definition ofstream_write (f : ofstream) (text : string) : ofstream :=
  if is_open f
  then {| is_open := true; buffer := buffer f +:+ text; contents := contents f |}
  else f.

(** The buffer writes its first [n] characters out, as it does when it runs
    full in the middle of a [<<]. *)
Definition ofstream_overflow (n : nat) (f : ofstream) : ofstream :=
  if is_open f
  then {| is_open := true;
          buffer := (split_at n (buffer f)).2;
          contents := contents f +:+ (split_at n (buffer f)).1 |}
  else f.

(** [close()]: the buffer is written out. *)
Definition ofstream_close (f : ofstream) : ofstream :=
  if is_open f
  then {| is_open := false; buffer := ""; contents := contents f +:+ buffer f |}
  else f.

(** All the text an open stream holds, written out or not. *)
Definition stream_text (f : ofstream) : string := contents f +:+ buffer f.

(** The lines of a text, as [std::getline] reads them: a line feed ends a
    line, and characters after the last line feed form a last line. *)
Fixpoint lines (s : string) : list string :=
  match s with
  | EmptyString => []
  | String c s' =>
      if Ascii.eqb c newline then EmptyString :: lines s'
      else match lines s' with
           | [] => [String c EmptyString]
           | l :: ls => String c l :: ls
           end
  end.

Fixpoint has_char (c : ascii) (s : string) : bool :=
  match s with
  | EmptyString => false
  | String d s' => Ascii.eqb d c || has_char c s'
  end.

(** ** TraceEvent *)

Record TraceEvent := mk_TraceEvent {
  trace_name : string;
  start_time : Z;
  end_time : Z
}.

(** The text that [trace_consumer] writes for one event.  [pretty] writes an
    integer in decimal, with a minus sign when it is negative, as [operator<<]
    writes the [count()] of a duration. *)
Definition event_line (e : TraceEvent) : string :=
  trace_name e +:+ " " +:+ pretty (start_time e) +:+ " " +:+ pretty (end_time e).

Definition serialize (e : TraceEvent) : string := event_line e +:+ line_feed.

(** The text written for a list of events, in their order. *)
Fixpoint render (es : list TraceEvent) : string :=
  match es with
  | [] => EmptyString
  | e :: es' => serialize e +:+ render es'
  end.

(** ** TraceSession *)

Module TraceSession.

(** Where the consumer thread stands in [trace_consumer]. *)
Inductive ConsumerPc :=
| AtEntry      (* before [std::ofstream trace_file(filename_)] *)
| AtLoopTest   (* at [while (running || !trace_queue.empty())] *)
| AtWait       (* taking [queue_mutex] and testing the condition of [cv.wait] *)
| AtBlock      (* the condition was false: holds the mutex, about to sleep *)
| Blocked      (* asleep on [cv], the mutex released *)
| Finished.    (* after [trace_file.close()] *)

Record t := mk {
  trace_queue : list TraceEvent;
  running : bool;
  filename_ : string;
  session_start_time_ : Z;
  consumer_pc : ConsumerPc;
  consumer_joinable : bool;
  trace_file : ofstream
}.

Definition set_trace_queue (q : list TraceEvent) (s : t) : t :=
  mk q (running s) (filename_ s) (session_start_time_ s)
     (consumer_pc s) (consumer_joinable s) (trace_file s).
Definition set_running (b : bool) (s : t) : t :=
  mk (trace_queue s) b (filename_ s) (session_start_time_ s)
     (consumer_pc s) (consumer_joinable s) (trace_file s).
Definition set_consumer_pc (pc : ConsumerPc) (s : t) : t :=
  mk (trace_queue s) (running s) (filename_ s) (session_start_time_ s)
     pc (consumer_joinable s) (trace_file s).
Definition set_consumer_joinable (b : bool) (s : t) : t :=
  mk (trace_queue s) (running s) (filename_ s) (session_start_time_ s)
     (consumer_pc s) b (trace_file s).
Definition set_trace_file (f : ofstream) (s : t) : t :=
  mk (trace_queue s) (running s) (filename_ s) (session_start_time_ s)
     (consumer_pc s) (consumer_joinable s) f.

(** The constructor; [now] is the clock reading it takes.  The stream is the
    consumer's, which has not made it yet. *)
Definition create (filename : string) (now : Z) : t :=
  {| trace_queue := [];
     running := true;
     filename_ := filename;
     session_start_time_ := now;
     consumer_pc := AtEntry;
     consumer_joinable := true;
     trace_file := {| is_open := false; buffer := ""; contents := "" |} |}.

(** [cv.notify_one()] and [cv.notify_all()]: the only thread that ever waits
    on [cv] is the consumer; a notification wakes it if it sleeps and is lost
    otherwise. *)
Definition notify (s : t) : t :=
  match consumer_pc s with
  | Blocked => set_consumer_pc AtWait s
  | _ => s
  end.

(** Taking [queue_mutex] on a producer's side.  The consumer holds the mutex
    only between a failed test of its condition and its sleep; the producer
    then gets the mutex once the consumer sleeps. *)
Definition lock_queue_mutex (s : t) : t :=
  match consumer_pc s with
  | AtBlock => set_consumer_pc Blocked s
  | _ => s
  end.

Definition make_event (s : t) (name : string) (start_t end_t : Z) : TraceEvent :=
  {| trace_name := name;
     start_time := Int64.sub start_t (session_start_time_ s);
     end_time := Int64.sub end_t (session_start_time_ s) |}.

Definition register_trace (name : string) (start_t end_t : Z) (s : t) : t :=
  let event := make_event s name start_t end_t in
  let s1 := lock_queue_mutex s in
  let s2 := set_trace_queue (trace_queue s1 ++ [event]) s1 in
  notify s2.

(** The inner loop of [trace_consumer], run under [queue_mutex]: front, pop,
    write, until the queue is empty.  [flushes] says, for each event in turn,
    how many characters the buffer writes out while the event is written
    (none when the list is used up). *)
Fixpoint drain (flushes : list nat) (q : list TraceEvent) (f : ofstream) : ofstream :=
  match q with
  | [] => f
  | e :: q' =>
      drain (tail flushes) q'
        (ofstream_overflow (default O (head flushes))
           (ofstream_write f (serialize e)))
  end.

Definition queue_empty (s : t) : bool :=
  match trace_queue s with [] => true | _ => false end.

(** One step of the consumer thread; [None] when it cannot move: it sleeps
    on the condition variable, or it has finished.  [can_open] is the file
    system's answer to the opening of a destination. *)
Definition trace_consumer_step (can_open : string -> bool) (flushes : list nat)
    (s : t) : option t :=
  match consumer_pc s with
  | AtEntry =>
      Some (set_consumer_pc AtLoopTest
              (set_trace_file (ofstream_open (can_open (filename_ s))) s))
  | AtLoopTest =>
      if running s || negb (queue_empty s)
      then Some (set_consumer_pc AtWait s)
      else Some (set_consumer_pc Finished
                   (set_trace_file (ofstream_close (trace_file s)) s))
  | AtWait =>
      if negb (queue_empty s) || negb (running s)
      then Some (set_consumer_pc AtLoopTest
                   (set_trace_queue []
                      (set_trace_file
                         (drain flushes (trace_queue s) (trace_file s)) s)))
      else Some (set_consumer_pc AtBlock s)
  | AtBlock => Some (set_consumer_pc Blocked s)
  | Blocked => None
  | Finished => None
  end.

(** What the consumer thread does while other threads wait or go on: it takes
    a step (nothing happens if it cannot move), or it wakes up without a
    notification, as a thread that waits on a condition variable may. *)
Inductive Background :=
| Step (flushes : list nat)
| Spurious.

Definition background (can_open : string -> bool) (b : Background) (s : t) : t :=
  match b with
  | Step flushes => default s (trace_consumer_step can_open flushes s)
  | Spurious => notify s
  end.

Definition backgrounds (can_open : string -> bool) (bs : list Background) (s : t) : t :=
  foldl (fun s b => background can_open b s) s bs.

(** [consumer_thread.join()]: the caller waits while the consumer does what
    [during] says, and no other thread touches the session meanwhile.  [None]:
    the consumer has not finished by then, the caller still waits. *)
Definition join (can_open : string -> bool) (during : list Background) (s : t)
    : option t :=
  let s' := backgrounds can_open during s in
  match consumer_pc s' with
  | Finished => Some (set_consumer_joinable false s')
  | _ => None
  end.

(** [stop()], called while no producer is active.  [between] is what the
    consumer does after [running = false] and before [cv.notify_all()],
    [during] what it does while the caller waits in [join]. *)
Definition stop (can_open : string -> bool) (between during : list Background)
    (s : t) : option t :=
  if running s then
    let s1 := set_running false s in
    let s2 := backgrounds can_open between s1 in
    let s3 := notify s2 in
    if consumer_joinable s3 then join can_open during s3 else Some s3
  else Some s.

(** The destructor. *)
Definition destroy (can_open : string -> bool) (between during : list Background)
    (s : t) : option t :=
  stop can_open between during s.

(** *** Interleavings

    What the threads around one session do, one atomic action at a time:
    a producer runs [register_trace]; the consumer does something; a thread
    that has entered [stop] tests and clears [running], then calls
    [notify_all], and at last its [join] returns. *)
Inductive Action :=
| Submit (name : string) (start_t end_t : Z)
| Consumer (b : Background)
| StopClear
| StopNotify
| StopReturn.

Definition exec (can_open : string -> bool) (a : Action) (s : t) : option t :=
  match a with
  | Submit name start_t end_t => Some (register_trace name start_t end_t s)
  | Consumer b => Some (background can_open b s)
  | StopClear => Some (if running s then set_running false s else s)
  | StopNotify => Some (notify s)
  | StopReturn =>
      match consumer_pc s with
      | Finished =>
          if negb (running s) && consumer_joinable s
          then Some (set_consumer_joinable false s) else None
      | _ => None
      end
  end.

Fixpoint run (can_open : string -> bool) (sched : list Action) (s : t) : option t :=
  match sched with
  | [] => Some s
  | a :: sched' =>
      match exec can_open a s with
      | Some s' => run can_open sched' s'
      | None => None
      end
  end.

(** The events a schedule submits to a session created at [reference], in
    the order of submission. *)
Fixpoint submitted (reference : Z) (sched : list Action) : list TraceEvent :=
  match sched with
  | [] => []
  | Submit name start_t end_t :: sched' =>
      {| trace_name := name;
         start_time := Int64.sub start_t reference;
         end_time := Int64.sub end_t reference |} :: submitted reference sched'
  | _ :: sched' => submitted reference sched'
  end.

(** Actions while nobody has called [stop]. *)
Definition is_live (a : Action) : bool :=
  match a with Submit _ _ _ | Consumer _ => true | _ => false end.

(** Actions between the entry of a [stop] and its return when no producer is
    active: the consumer's, and the notification of [stop]. *)
Definition is_consumer (a : Action) : bool :=
  match a with Consumer _ | StopNotify => true | _ => false end.

(** The same with producers that go on submitting. *)
Definition is_during_stop (a : Action) : bool :=
  match a with Submit _ _ _ | Consumer _ | StopNotify => true | _ => false end.


(** The steps of the consumer in what it does. *)
Fixpoint consumer_steps (bs : list Background) : nat :=
  match bs with
  | [] => O
  | Step _ :: bs' => S (consumer_steps bs')
  | Spurious :: bs' => consumer_steps bs'
  end.

(** With [running] cleared, a bound on the steps a consumer that is awake
    needs to reach the end of [trace_consumer]; none for a consumer that
    sleeps or is about to. *)
Definition steps_to_finish (s : t) : option nat :=
  match consumer_pc s with
  | AtEntry => Some 4%nat
  | AtLoopTest => Some (if queue_empty s then 1%nat else 3%nat)
  | AtWait => Some 2%nat
  | AtBlock | Blocked => None
  | Finished => Some O
  end.

(** The consumer's stream after it has taken the events [consumed] off the
    queue: open, it holds their text; not opened, it holds nothing. *)
Definition stream_holds (ok : bool) (consumed : list TraceEvent) (f : ofstream)
    : Prop :=
  is_open f = ok /\
  stream_text f = if ok then render consumed else EmptyString.

(** The same stream once it is closed: the text is in the file. *)
Definition file_holds (ok : bool) (consumed : list TraceEvent) (f : ofstream)
    : Prop :=
  is_open f = false /\ buffer f = EmptyString /\
  contents f = if ok then render consumed else EmptyString.

(** A session that nobody has stopped: of the events [es] submitted so far,
    the consumer has taken the first ones off the queue and given them to its
    stream, the others are the queue; a consumer that sleeps or is about to
    has left nothing in the queue; a consumer that has not started has not
    made its stream. *)
Definition live_writer (can_open : string -> bool) (reference : Z)
    (es : list TraceEvent) (s : t) : Prop :=
  running s = true /\
  consumer_joinable s = true /\
  session_start_time_ s = reference /\
  consumer_pc s <> Finished /\
  (consumer_pc s = AtBlock \/ consumer_pc s = Blocked -> trace_queue s = []) /\
  exists consumed,
    es = consumed ++ trace_queue s /\
    match consumer_pc s with
    | AtEntry => consumed = [] /\ stream_text (trace_file s) = EmptyString
    | _ => stream_holds (can_open (filename_ s)) consumed (trace_file s)
    end.

(** A session between the clearing of [running] and the return of [stop]:
    [es] were submitted before, [late] since. *)
Definition stopping (can_open : string -> bool) (es late : list TraceEvent)
    (s : t) : Prop :=
  running s = false /\
  exists consumed,
    es ++ late = consumed ++ trace_queue s /\
    match consumer_pc s with
    | AtEntry => consumed = []
    | Finished =>
        (exists extra, consumed = es ++ extra) /\
        file_holds (can_open (filename_ s)) consumed (trace_file s)
    | _ => stream_holds (can_open (filename_ s)) consumed (trace_file s)
    end.

(** The file of a terminated session holds the events [es], one line each. *)
Definition persisted (es : list TraceEvent) (s : t) : Prop :=
  contents (trace_file s) = render es /\
  is_open (trace_file s) = false /\
  buffer (trace_file s) = EmptyString /\
  (Forall (fun e => has_char newline (trace_name e) = false) es ->
     lines (contents (trace_file s)) = event_line <$> es /\
     length (lines (contents (trace_file s))) = length es).

End TraceSession.

(** ** TraceGuard *)

(** The members of [std::string] that [extract_trace_name] calls.  [find] and
    [rfind] answer [None] where the library answers [npos]; [substr] answers
    [None] where the library throws [std::out_of_range]. *)
Module StdString.

Fixpoint find (c : ascii) (s : string) : option nat :=
  match s with
  | EmptyString => None
  | String d s' =>
      if Ascii.eqb d c then Some O
      else match find c s' with Some i => Some (S i) | None => None end
  end.

Fixpoint rfind (c : ascii) (s : string) : option nat :=
  match s with
  | EmptyString => None
  | String d s' =>
      match rfind c s' with
      | Some i => Some (S i)
      | None => if Ascii.eqb d c then Some O else None
      end
  end.

Fixpoint take (n : nat) (s : string) : string :=
  match n, s with
  | S n', String d s' => String d (take n' s')
  | _, _ => EmptyString
  end.

Fixpoint drop (n : nat) (s : string) : string :=
  match n, s with
  | S n', String _ s' => drop n' s'
  | _, _ => s
  end.

(** [s.substr(pos, count)]; [count = None] stands for the default [npos]. *)
Definition substr (pos : nat) (count : option nat) (s : string) : option string :=
  if (String.length s <? pos)%nat then None
  else Some (match count with
             | Some n => take n (drop pos s)
             | None => drop pos s
             end).

End StdString.

Module TraceGuard.

Definition extract_trace_name (function_signature : string) : option string :=
  let result := function_signature in
  match
    match StdString.find "(" result with
    | Some pos => StdString.substr 0 (Some pos) result
    | None => Some result
    end
  with
  | None => None
  | Some result =>
      match StdString.rfind " " result with
      | Some pos => StdString.substr (pos + 1) None result
      | None => Some result
      end
  end.

End TraceGuard.

(** The name derivation in the words of the specification: drop everything from
    the first [c] onward ... *)
Fixpoint before_first (c : ascii) (s : string) : string :=
  match s with
  | EmptyString => EmptyString
  | String d s' => if Ascii.eqb d c then EmptyString else String d (before_first c s')
  end.

(** ... then keep what stands after the last [c], all of it when there is none. *)
Fixpoint after_last (c : ascii) (s : string) : string :=
  match s with
  | EmptyString => EmptyString
  | String d s' =>
      if has_char c s' then after_last c s'
      else if Ascii.eqb d c then s' else s
  end.

Definition derived_name (signature : string) : string :=
  after_last " " (before_first "(" signature).

(** ** The world around the shared traces

    A [NamedSharedTrace] holds a reference to its session, and several traces
    may refer to one session: sessions live in a store and are named by their
    address.  [cerr] collects the lines written to [std::cerr]. *)
Record World := mk_World {
  sessions : gmap nat TraceSession.t;
  cerr : list string
}.

Definition warn (msg : string) (w : World) : World :=
  {| sessions := sessions w; cerr := cerr w ++ [msg] |}.

(** [session.register_trace(...)] through a reference.  A reference to a
    session that is gone is outside the model; the store then stays as it is. *)
Definition register_trace_at (addr : nat) (name : string) (start_t end_t : Z)
    (w : World) : World :=
  {| sessions := alter (TraceSession.register_trace name start_t end_t) addr (sessions w);
     cerr := cerr w |}.

(** The session at [addr] was created at [reference] and its queue holds [q]. *)
Definition session_queue (w : World) (addr : nat) (reference : Z)
    (q : list TraceEvent) : Prop :=
  exists sess,
    sessions w !! addr = Some sess /\
    TraceSession.session_start_time_ sess = reference /\
    TraceSession.trace_queue sess = q.

(** ** NamedSharedTrace *)

Definition TRACE_SIZE_INIT : Z := 100.

(** [v.size()] and [v[i]] of a [std::vector]; an index out of range, undefined
    in C++, reads zero and writes nothing. *)
Definition vector_size {A} (v : list A) : Z := Z.of_nat (length v).
Definition vector_get (v : list Z) (i : Z) : Z := default 0 (v !! Z.to_nat i).
Definition vector_set (v : list Z) (i : Z) (x : Z) : list Z := <[Z.to_nat i := x]> v.

Module NamedSharedTrace.

Record t := mk {
  session_ : nat;
  trace_name_ : string;
  start_times_ : list Z;
  counter_push_ : Z;
  counter_pop_ : Z;
  elements_ : Z
}.

Definition create (session : nat) (name : string) : t :=
  {| session_ := session;
     trace_name_ := name;
     start_times_ := replicate (Z.to_nat TRACE_SIZE_INIT) 0;
     counter_push_ := 0;
     counter_pop_ := 0;
     elements_ := 0 |}.

Definition capacity (tr : t) : Z := vector_size (start_times_ tr).

Definition full_warning : string :=
  "Warning: Start times vector is full. Cannot start new trace.".
Definition unmatched_warning : string :=
  "Warning: No matching start() call for end() - ignoring.".

(** [start()]; [now] is the clock reading taken when the call is accepted. *)
Definition start (now : Z) (tr : t) (w : World) : t * World :=
  if vector_size (start_times_ tr) <=? elements_ tr then (tr, warn full_warning w)
  else
    let elements' := SizeT.add (elements_ tr) 1 in
    let start_times' := vector_set (start_times_ tr) (counter_push_ tr) now in
    let counter_push' :=
      SizeT.add (counter_push_ tr) 1 mod vector_size start_times' in
    ({| session_ := session_ tr;
        trace_name_ := trace_name_ tr;
        start_times_ := start_times';
        counter_push_ := counter_push';
        counter_pop_ := counter_pop_ tr;
        elements_ := elements' |}, w).

(** [end()]; [now] is the clock reading taken when the call is accepted. *)
Definition end_ (now : Z) (tr : t) (w : World) : t * World :=
  if elements_ tr =? 0 then (tr, warn unmatched_warning w)
  else
    let end_time := now in
    let w' :=
      register_trace_at (session_ tr) (trace_name_ tr)
        (vector_get (start_times_ tr) (counter_pop_ tr)) end_time w in
    let counter_pop' :=
      SizeT.add (counter_pop_ tr) 1 mod vector_size (start_times_ tr) in
    ({| session_ := session_ tr;
        trace_name_ := trace_name_ tr;
        start_times_ := start_times_ tr;
        counter_push_ := counter_push_ tr;
        counter_pop_ := counter_pop';
        elements_ := SizeT.sub (elements_ tr) 1 |}, w').

(** Calls on one trace, with the clock reading each of them would take.
    Both calls hold [trace_mutex_] from their first statement to their last,
    so calls from several threads take effect one after another: a list of
    calls stands for the order in which they get the mutex. *)
Inductive Op :=
| Start (now : Z)
| End (now : Z).

Definition apply (op : Op) (st : t * World) : t * World :=
  match op with
  | Start now => start now st.1 st.2
  | End now => end_ now st.1 st.2
  end.

Definition run (ops : list Op) (st : t * World) : t * World :=
  foldl (fun st op => apply op st) st ops.

(** The start instants that wait for their [end()], oldest first: the
    [elements_] slots that [end()] would read, from [counter_pop_] on, each
    time advancing the cursor as [end()] does. *)
Fixpoint ring_read (v : list Z) (from : Z) (n : nat) : list Z :=
  match n with
  | O => []
  | S n' =>
      vector_get v from :: ring_read v (SizeT.add from 1 mod vector_size v) n'
  end.

Definition pending (tr : t) : list Z :=
  ring_read (start_times_ tr) (counter_pop_ tr) (Z.to_nat (elements_ tr)).

(** The fields hold values of their C++ types. *)
Definition well_typed (tr : t) : Prop :=
  SizeT.in_range (counter_push_ tr) /\ SizeT.in_range (counter_pop_ tr) /\
  SizeT.in_range (elements_ tr) /\ SizeT.in_range (capacity tr).

Definition live_count_bounded (tr : t) : Prop :=
  0 <= elements_ tr <= capacity tr.

Definition cursors_coherent (tr : t) : Prop :=
  counter_push_ tr = (counter_pop_ tr + elements_ tr) mod capacity tr /\
  counter_push_ tr < capacity tr /\
  counter_pop_ tr < capacity tr.

Definition consistent (tr : t) : Prop :=
  well_typed tr /\ live_count_bounded tr /\ cursors_coherent tr.

End NamedSharedTrace.

(** The event that a session created at [reference] enqueues for a start
    instant and an end instant. *)
Definition event_of (reference : Z) (name : string) (span : Z * Z) : TraceEvent :=
  {| trace_name := name;
     start_time := Int64.sub span.1 reference;
     end_time := Int64.sub span.2 reference |}.

(** The matching discipline in the words of the specification: the unmatched
    starts form a queue of at most [cap] instants; [start] appends the current
    instant unless the queue is full, [end] takes the oldest one and pairs it
    with the current instant. *)
Module Fifo.

Record t := mk {
  unmatched : list Z;
  matched : list (Z * Z)
}.

Definition empty : t := {| unmatched := []; matched := [] |}.

Definition apply (cap : Z) (op : NamedSharedTrace.Op) (q : t) : t :=
  match op with
  | NamedSharedTrace.Start now =>
      if Z.of_nat (length (unmatched q)) <? cap
      then {| unmatched := unmatched q ++ [now]; matched := matched q |}
      else q
  | NamedSharedTrace.End now =>
      match unmatched q with
      | [] => q
      | oldest :: rest =>
          {| unmatched := rest; matched := matched q ++ [(oldest, now)] |}
      end
  end.

Definition run (cap : Z) (ops : list NamedSharedTrace.Op) (q : t) : t :=
  foldl (fun q op => apply cap op q) q ops.

End Fifo.

(** ** TraceRegistry *)

Module TraceRegistry.

Record t := mk {
  traces_ : gmap string NamedSharedTrace.t
}.

(** The singleton as [getInstance] first returns it. *)
Definition instance : t := {| traces_ := ∅ |}.

Definition registerTrace (id : string) (session : nat) (r : t) : t :=
  {| traces_ := <[id := NamedSharedTrace.create session id]> (traces_ r) |}.

Definition startTrace (id : string) (now : Z) (r : t) (w : World) : t * World :=
  match traces_ r !! id with
  | Some tr =>
      let '(tr', w') := NamedSharedTrace.start now tr w in
      ({| traces_ := <[id := tr']> (traces_ r) |}, w')
  | None => (r, w)
  end.

Definition endTrace (id : string) (now : Z) (r : t) (w : World) : t * World :=
  match traces_ r !! id with
  | Some tr =>
      let '(tr', w') := NamedSharedTrace.end_ now tr w in
      ({| traces_ := <[id := tr']> (traces_ r) |}, w')
  | None => (r, w)
  end.

End TraceRegistry.

(** ** TraceGuard objects

    The guard with its members: the session it refers to, the name it derives
    in its constructor and the instant of its creation. *)
Module TraceGuardObject.

Record t := mk {
  session_ : nat;
  trace_name_ : string;
  start_time_ : Z
}.

(** The constructor; [now] is the clock reading it takes.  [None] would be an
    exception thrown by [extract_trace_name]. *)
Definition create (session : nat) (trace_name : string) (now : Z) : option t :=
  match TraceGuard.extract_trace_name trace_name with
  | Some name =>
      Some {| session_ := session; trace_name_ := name; start_time_ := now |}
  | None => None
  end.

Definition get_start_time (g : t) : Z := start_time_ g.

(** The destructor; [now] is the clock reading it takes. *)
Definition destroy (now : Z) (g : t) (w : World) : World :=
  let end_time := now in
  register_trace_at (session_ g) (trace_name_ g) (start_time_ g) end_time w.

End TraceGuardObject.

(** ** Calls through the registry *)

(** [startTrace(id)] and [endTrace(id)] for the calls of a list, in its order. *)
Definition registry_apply (id : string) (op : NamedSharedTrace.Op)
    (st : TraceRegistry.t * World) : TraceRegistry.t * World :=
  match op with
  | NamedSharedTrace.Start now => TraceRegistry.startTrace id now st.1 st.2
  | NamedSharedTrace.End now => TraceRegistry.endTrace id now st.1 st.2
  end.

Definition registry_run (id : string) (ops : list NamedSharedTrace.Op)
    (st : TraceRegistry.t * World) : TraceRegistry.t * World :=
  foldl (fun st op => registry_apply id op st) st ops.

(** ** Warnings and sequences of calls *)

(** The warnings that the calls of a list draw on the queue of the
    specification: one for a [start] on a full queue, one for an [end] on an
    empty queue. *)
Fixpoint fifo_warnings (cap : Z) (ops : list NamedSharedTrace.Op) (q : Fifo.t)
    : list string :=
  match ops with
  | [] => []
  | op :: ops' =>
      match op with
      | NamedSharedTrace.Start _ =>
          if Z.of_nat (length (Fifo.unmatched q)) <? cap then []
          else [NamedSharedTrace.full_warning]
      | NamedSharedTrace.End _ =>
          match Fifo.unmatched q with
          | [] => [NamedSharedTrace.unmatched_warning]
          | _ :: _ => []
          end
      end ++ fifo_warnings cap ops' (Fifo.apply cap op q)
  end.

(** A [start()] directly followed by its [end()], once for each pair of clock
    readings, as the over-capacity test of the repository calls them. *)
Fixpoint pair_ops (pairs : list (Z * Z)) : list NamedSharedTrace.Op :=
  match pairs with
  | [] => []
  | (t_start, t_end) :: pairs' =>
      NamedSharedTrace.Start t_start :: NamedSharedTrace.End t_end :: pair_ops pairs'
  end.

(** * Properties *)

(** ** Integers and texts *)

Lemma int64_wrap_in_range x : Int64.in_range x -> Int64.wrap x = x.
Proof.
  unfold Int64.in_range, Int64.min_signed, Int64.max_signed, Int64.wrap.
  intros Hx. rewrite Z.mod_small; lia.
Qed.

Lemma size_t_wrap_in_range x : SizeT.in_range x -> SizeT.wrap x = x.
Proof.
  unfold SizeT.in_range, SizeT.wrap. intros Hx. by rewrite Z.mod_small.
Qed.

Lemma append_cons d (a b : string) : String d a +:+ b = String d (a +:+ b).
Proof. reflexivity. Qed.

Lemma append_empty_l (a : string) : "" +:+ a = a.
Proof. reflexivity. Qed.

Lemma append_assoc (a b c : string) : (a +:+ b) +:+ c = a +:+ (b +:+ c).
Proof.
  induction a as [|d a IH]; [done |].
  rewrite !append_cons. by f_equal.
Qed.

Lemma append_empty_r (a : string) : a +:+ "" = a.
Proof.
  induction a as [|d a IH]; [done |].
  rewrite append_cons. by f_equal.
Qed.

Lemma has_char_append c (a b : string) :
  has_char c (a +:+ b) = has_char c a || has_char c b.
Proof.
  induction a as [|d a IH]; [done |].
  rewrite append_cons. cbn [has_char]. rewrite IH. by rewrite orb_assoc.
Qed.

Lemma lines_terminated (l rest : string) :
  has_char newline l = false -> lines (l +:+ line_feed +:+ rest) = l :: lines rest.
Proof.
  induction l as [|d l IH]; intros Hl.
  - done.
  - cbn [has_char] in Hl. apply orb_false_elim in Hl as [Hd Hl].
    rewrite append_cons. cbn [lines]. rewrite Hd, (IH Hl). done.
Qed.

Lemma pretty_N_char_not_newline x : Ascii.eqb (pretty_N_char x) newline = false.
Proof. unfold pretty_N_char. by repeat case_match. Qed.

Lemma pretty_N_go_newline x s :
  has_char newline (pretty_N_go x s) = has_char newline s.
Proof.
  revert s. induction (N.lt_wf_0 x) as [x _ IH]; intros s.
  destruct (decide (x = 0)%N) as [->|Hx].
  - by rewrite pretty_N_go_0.
  - rewrite pretty_N_go_step by lia.
    rewrite IH by (apply N.div_lt; lia).
    simpl. by rewrite pretty_N_char_not_newline.
Qed.

Lemma pretty_N_newline (x : N) : has_char newline (pretty x) = false.
Proof.
  unfold pretty, pretty_N. case_decide; [done |].
  by rewrite pretty_N_go_newline.
Qed.

Lemma pretty_positive_newline (p : positive) : has_char newline (pretty p) = false.
Proof. exact (pretty_N_newline (N.pos p)). Qed.

Lemma pretty_Z_newline (x : Z) : has_char newline (pretty x) = false.
Proof.
  destruct x as [|p|p].
  - done.
  - exact (pretty_positive_newline p).
  - change (pretty (Z.neg p)) with ("-" +:+ pretty p).
    rewrite has_char_append. by rewrite pretty_positive_newline.
Qed.

Lemma event_line_newline e :
  has_char newline (trace_name e) = false ->
  has_char newline (event_line e) = false.
Proof.
  intros Hn. unfold event_line.
  rewrite !has_char_append, Hn, !pretty_Z_newline. done.
Qed.

Lemma lines_render es :
  Forall (fun e => has_char newline (trace_name e) = false) es ->
  lines (render es) = event_line <$> es.
Proof.
  induction 1 as [|e es He _ IH]; [done |].
  cbn [render fmap list_fmap]. unfold serialize.
  rewrite append_assoc, lines_terminated by by apply event_line_newline.
  by rewrite IH.
Qed.

Lemma render_app es1 es2 : render (es1 ++ es2) = render es1 +:+ render es2.
Proof.
  induction es1 as [|e es1 IH]; [done |].
  cbn [app render]. by rewrite IH, append_assoc.
Qed.

(** ** Streams *)

Lemma split_at_append n s : (split_at n s).1 +:+ (split_at n s).2 = s.
Proof.
  revert s. induction n as [|n IH]; intros [|c s]; try done.
  cbn [split_at]. specialize (IH s). destruct (split_at n s) as [p r].
  cbn [fst snd] in *. rewrite append_cons. by f_equal.
Qed.

Lemma append_empty_inv (a b : string) : a +:+ b = "" -> a = "" /\ b = "".
Proof. destruct a; [done |]. rewrite append_cons. done. Qed.

Lemma overflow_keeps n f :
  is_open (ofstream_overflow n f) = is_open f /\
  stream_text (ofstream_overflow n f) = stream_text f.
Proof.
  unfold ofstream_overflow, stream_text. destruct (is_open f) eqn:Ho; [| done].
  cbn [is_open contents buffer]. split; [done |].
  by rewrite append_assoc, split_at_append.
Qed.

Lemma write_open f text :
  is_open f = true ->
  is_open (ofstream_write f text) = true /\
  stream_text (ofstream_write f text) = stream_text f +:+ text.
Proof.
  intros Ho. unfold ofstream_write, stream_text. rewrite Ho.
  cbn [is_open contents buffer]. by rewrite append_assoc.
Qed.

Lemma drain_open flushes q f :
  is_open f = true ->
  is_open (TraceSession.drain flushes q f) = true /\
  stream_text (TraceSession.drain flushes q f) = stream_text f +:+ render q.
Proof.
  revert flushes f. induction q as [|e q IH]; intros flushes f Ho.
  - cbn [TraceSession.drain render]. by rewrite append_empty_r.
  - cbn [TraceSession.drain render].
    destruct (write_open f (serialize e) Ho) as [Ho1 Ht1].
    destruct (overflow_keeps (default O (head flushes))
                (ofstream_write f (serialize e))) as [Ho2 Ht2].
    destruct (IH (tail flushes) _ (eq_trans Ho2 Ho1)) as [Ho3 Ht3].
    split; [done |]. by rewrite Ht3, Ht2, Ht1, append_assoc.
Qed.

Lemma drain_unopened flushes q f :
  is_open f = false -> TraceSession.drain flushes q f = f.
Proof.
  revert flushes. induction q as [|e q IH]; intros flushes Ho; [done |].
  cbn [TraceSession.drain]. unfold ofstream_write, ofstream_overflow.
  rewrite Ho, Ho. by apply IH.
Qed.

Lemma open_holds ok : TraceSession.stream_holds ok [] (ofstream_open ok).
Proof. unfold TraceSession.stream_holds, stream_text. cbn. by destruct ok. Qed.

Lemma drain_holds ok consumed flushes q f :
  TraceSession.stream_holds ok consumed f ->
  TraceSession.stream_holds ok (consumed ++ q) (TraceSession.drain flushes q f).
Proof.
  intros [Ho Ht]. unfold TraceSession.stream_holds. destruct ok.
  - destruct (drain_open flushes q f Ho) as [Ho' Ht'].
    split; [done |]. by rewrite Ht', Ht, render_app.
  - by rewrite drain_unopened.
Qed.

Lemma close_holds ok consumed f :
  TraceSession.stream_holds ok consumed f ->
  TraceSession.file_holds ok consumed (ofstream_close f).
Proof.
  intros [Ho Ht]. unfold TraceSession.file_holds, ofstream_close.
  rewrite Ho. destruct ok.
  - cbn [is_open buffer contents]. by repeat split.
  - unfold stream_text in Ht. apply append_empty_inv in Ht as [Hc Hb].
    by repeat split.
Qed.

(** ** TraceSession: one call of [register_trace] *)

Lemma register_trace_queue name t0 t1 s :
  TraceSession.trace_queue (TraceSession.register_trace name t0 t1 s) =
  TraceSession.trace_queue s ++ [TraceSession.make_event s name t0 t1].
Proof.
  by destruct s as [q r f ref [] j tf].
Qed.

Lemma register_trace_start_time name t0 t1 s :
  TraceSession.session_start_time_ (TraceSession.register_trace name t0 t1 s) =
  TraceSession.session_start_time_ s.
Proof.
  by destruct s as [q r f ref [] j tf].
Qed.

(** ** TraceSession: schedules *)

Lemma run_app can_open sched1 sched2 s :
  TraceSession.run can_open (sched1 ++ sched2) s =
  match TraceSession.run can_open sched1 s with
  | Some s' => TraceSession.run can_open sched2 s'
  | None => None
  end.
Proof.
  revert s. induction sched1 as [|a sched1 IH]; intros s; [done |].
  cbn [app TraceSession.run].
  destruct (TraceSession.exec can_open a s); [apply IH | done].
Qed.

Lemma submitted_app reference sched1 sched2 :
  TraceSession.submitted reference (sched1 ++ sched2) =
  TraceSession.submitted reference sched1 ++ TraceSession.submitted reference sched2.
Proof.
  induction sched1 as [|a sched1 IH]; [done |].
  destruct a; cbn [app TraceSession.submitted]; by rewrite ?IH.
Qed.

Lemma background_filename can_open b s :
  TraceSession.filename_ (TraceSession.background can_open b s) =
  TraceSession.filename_ s.
Proof.
  destruct s as [q r fn ref pc j f]. destruct b as [flushes |].
  - destruct pc; cbn; repeat case_match; done.
  - by destruct pc.
Qed.

Lemma backgrounds_filename can_open bs s :
  TraceSession.filename_ (TraceSession.backgrounds can_open bs s) =
  TraceSession.filename_ s.
Proof.
  revert s. induction bs as [|b bs IH]; intros s; [done |].
  unfold TraceSession.backgrounds. cbn [foldl].
  fold (TraceSession.backgrounds can_open bs (TraceSession.background can_open b s)).
  by rewrite IH, background_filename.
Qed.

Lemma exec_filename can_open a s s' :
  TraceSession.exec can_open a s = Some s' ->
  TraceSession.filename_ s' = TraceSession.filename_ s.
Proof.
  destruct a as [name t0 t1 | b | | |]; cbn [TraceSession.exec].
  - intros [= <-]. by destruct s as [q r fn ref [] j f].
  - intros [= <-]. apply background_filename.
  - intros [= <-]. by destruct s as [q [] fn ref pc j f].
  - intros [= <-]. by destruct s as [q r fn ref [] j f].
  - destruct s as [q r fn ref pc j f]. cbn.
    destruct pc; try done. destruct (negb r && j); [| done]. by intros [= <-].
Qed.

Lemma run_filename can_open sched s s' :
  TraceSession.run can_open sched s = Some s' ->
  TraceSession.filename_ s' = TraceSession.filename_ s.
Proof.
  revert s. induction sched as [|a sched IH]; intros s.
  - by intros [= <-].
  - cbn [TraceSession.run].
    destruct (TraceSession.exec can_open a s) as [s1|] eqn:Hexec; [| done].
    intros Hrun. rewrite (IH _ Hrun). by eapply exec_filename.
Qed.

(** *** While the session is live *)

Lemma live_writer_create can_open filename now :
  TraceSession.live_writer can_open now [] (TraceSession.create filename now).
Proof.
  unfold TraceSession.live_writer. cbn. do 4 (split; [done |]).
  split; [by intros [? | ?] |]. by exists [].
Qed.

Lemma live_writer_exec can_open reference es a s :
  TraceSession.is_live a = true ->
  TraceSession.live_writer can_open reference es s ->
  exists s', TraceSession.exec can_open a s = Some s' /\
    TraceSession.live_writer can_open reference
      (es ++ TraceSession.submitted reference [a]) s'.
Proof.
  intros Ha (Hr & Hj & Href & Hpc & Hasleep & consumed & Hes & Hstream).
  destruct s as [q r fn ref pc j f].
  cbn [TraceSession.running TraceSession.consumer_joinable
       TraceSession.session_start_time_ TraceSession.consumer_pc
       TraceSession.trace_file TraceSession.trace_queue
       TraceSession.filename_] in *.
  subst r j ref es.
  destruct a as [name t0 t1 | [flushes |] | | |]; try discriminate Ha;
    (eexists; split; [reflexivity |]); cbn [TraceSession.submitted];
    rewrite ?app_nil_r; unfold TraceSession.live_writer.
  - (* a producer submits *)
    destruct pc; cbn; (do 4 (split; [done |]));
      (split; [by intros [? | ?] |]);
      exists consumed; by rewrite app_assoc.
  - (* the consumer steps *)
    destruct pc; [| | destruct q as [|e q] | | |]; cbn;
      (do 4 (split; [done |])).
    + split; [by intros [? | ?] |]. exists []. destruct Hstream as [-> _].
      split; [done |]. apply open_holds.
    + split; [by intros [? | ?] |]. by exists consumed.
    + split; [done |]. by exists consumed.
    + split; [by intros [? | ?] |]. exists (consumed ++ e :: q).
      rewrite app_nil_r. split; [done |].
      exact (drain_holds _ _ flushes (e :: q) _ Hstream).
    + split; [by auto |]. by exists consumed.
    + split; [by auto |]. by exists consumed.
    + done.
  - (* the consumer wakes up without a notification *)
    destruct pc; cbn; (do 4 (split; [done |]));
      (split; [try (by intros [? | ?]); by auto |]); by exists consumed.
Qed.

Lemma live_writer_run can_open reference es sched s :
  forallb TraceSession.is_live sched = true ->
  TraceSession.live_writer can_open reference es s ->
  exists s', TraceSession.run can_open sched s = Some s' /\
    TraceSession.live_writer can_open reference
      (es ++ TraceSession.submitted reference sched) s'.
Proof.
  revert es s. induction sched as [|a sched IH]; intros es s Hall Hlive.
  - exists s. split; [done |]. by rewrite app_nil_r.
  - cbn [forallb] in Hall. apply andb_prop in Hall as [Ha Hall].
    destruct (live_writer_exec _ _ _ _ _ Ha Hlive) as (s1 & Hexec & Hlive1).
    destruct (IH _ _ Hall Hlive1) as (s2 & Hrun & Hlive2).
    exists s2. split.
    + cbn [TraceSession.run]. by rewrite Hexec.
    + change (a :: sched) with ([a] ++ sched).
      by rewrite submitted_app, app_assoc.
Qed.

(** A session reached from its construction by producers and consumer. *)
Lemma live_writer_reached can_open filename now sched :
  forallb TraceSession.is_live sched = true ->
  exists s,
    TraceSession.run can_open sched (TraceSession.create filename now) = Some s /\
    TraceSession.filename_ s = filename /\
    TraceSession.live_writer can_open now (TraceSession.submitted now sched) s.
Proof.
  intros Hsched.
  destruct (live_writer_run can_open now [] sched _ Hsched
              (live_writer_create can_open filename now)) as (s & Hrun & Hlive).
  exists s. split; [done |]. split; [| done].
  by rewrite (run_filename _ _ _ _ Hrun).
Qed.

(** *** Once [running] is cleared *)

Lemma background_frame can_open b s :
  TraceSession.running (TraceSession.background can_open b s) = TraceSession.running s /\
  TraceSession.consumer_joinable (TraceSession.background can_open b s) =
    TraceSession.consumer_joinable s /\
  TraceSession.session_start_time_ (TraceSession.background can_open b s) =
    TraceSession.session_start_time_ s.
Proof.
  destruct s as [q r fn ref pc j f]. destruct b as [flushes |].
  - destruct pc; cbn; repeat case_match; done.
  - by destruct pc.
Qed.

Lemma backgrounds_cons can_open b bs s :
  TraceSession.backgrounds can_open (b :: bs) s =
  TraceSession.backgrounds can_open bs (TraceSession.background can_open b s).
Proof. done. Qed.

Lemma backgrounds_app can_open bs1 bs2 s :
  TraceSession.backgrounds can_open (bs1 ++ bs2) s =
  TraceSession.backgrounds can_open bs2 (TraceSession.backgrounds can_open bs1 s).
Proof. unfold TraceSession.backgrounds. by rewrite foldl_app. Qed.

Lemma backgrounds_frame can_open bs s :
  TraceSession.running (TraceSession.backgrounds can_open bs s) = TraceSession.running s /\
  TraceSession.consumer_joinable (TraceSession.backgrounds can_open bs s) =
    TraceSession.consumer_joinable s /\
  TraceSession.session_start_time_ (TraceSession.backgrounds can_open bs s) =
    TraceSession.session_start_time_ s.
Proof.
  revert s. induction bs as [|b bs IH]; intros s; [done |].
  rewrite backgrounds_cons.
  destruct (IH (TraceSession.background can_open b s)) as (Hr & Hj & Href).
  destruct (background_frame can_open b s) as (Hr' & Hj' & Href').
  repeat split; congruence.
Qed.

Lemma notify_background can_open s :
  TraceSession.notify s = TraceSession.background can_open TraceSession.Spurious s.
Proof. done. Qed.

Lemma stopping_clear can_open reference es s :
  TraceSession.live_writer can_open reference es s ->
  TraceSession.stopping can_open es [] (TraceSession.set_running false s).
Proof.
  intros (Hr & Hj & Href & Hpc & Hasleep & consumed & Hes & Hstream).
  destruct s as [q r fn ref pc j f].
  cbn [TraceSession.running TraceSession.consumer_joinable
       TraceSession.session_start_time_ TraceSession.consumer_pc
       TraceSession.trace_file TraceSession.trace_queue
       TraceSession.filename_] in *.
  split; [done |]. exists consumed. rewrite app_nil_r. split; [done |].
  destruct pc; try done. by destruct Hstream.
Qed.

Lemma stopping_background can_open es late b s :
  TraceSession.stopping can_open es late s ->
  TraceSession.stopping can_open es late (TraceSession.background can_open b s).
Proof.
  intros (Hr & consumed & Hes & Hstream).
  destruct s as [q r fn ref pc j f].
  cbn [TraceSession.running TraceSession.consumer_pc TraceSession.trace_file
       TraceSession.trace_queue TraceSession.filename_] in *.
  subst r. unfold TraceSession.stopping.
  destruct b as [flushes |].
  - destruct pc; [| destruct q as [|e q] | destruct q as [|e q] | | |]; cbn;
      (split; [done |]).
    + exists []. subst consumed. split; [done |]. apply open_holds.
    + exists consumed. split; [done |]. rewrite app_nil_r in Hes. split.
      * by exists late.
      * by apply close_holds.
    + by exists consumed.
    + exists consumed. split; [done |]. done.
    + exists (consumed ++ e :: q). rewrite app_nil_r. split; [done |].
      exact (drain_holds _ _ flushes (e :: q) _ Hstream).
    + by exists consumed.
    + by exists consumed.
    + by exists consumed.
  - destruct pc; cbn; (split; [done |]); by exists consumed.
Qed.

Lemma stopping_backgrounds can_open es late bs s :
  TraceSession.stopping can_open es late s ->
  TraceSession.stopping can_open es late (TraceSession.backgrounds can_open bs s).
Proof.
  revert s. induction bs as [|b bs IH]; intros s Hs; [done |].
  rewrite backgrounds_cons. by apply IH, stopping_background.
Qed.

Lemma stopping_exec can_open reference es late a s s' :
  TraceSession.is_during_stop a = true ->
  TraceSession.session_start_time_ s = reference ->
  TraceSession.stopping can_open es late s ->
  TraceSession.exec can_open a s = Some s' ->
  TraceSession.session_start_time_ s' = reference /\
  TraceSession.stopping can_open es
    (late ++ TraceSession.submitted reference [a]) s'.
Proof.
  intros Ha Href Hs Hexec.
  destruct a as [name t0 t1 | b | | |]; try discriminate Ha;
    cbn [TraceSession.exec] in Hexec; injection Hexec as <-;
    cbn [TraceSession.submitted]; rewrite ?app_nil_r.
  - destruct Hs as (Hr & consumed & Hes & Hstream).
    destruct s as [q r fn ref pc j f].
    cbn [TraceSession.running TraceSession.consumer_pc TraceSession.trace_file
         TraceSession.trace_queue TraceSession.filename_
         TraceSession.session_start_time_] in *.
    subst r ref. unfold TraceSession.stopping.
    destruct pc; cbn; (split; [done |]); (split; [done |]);
      exists consumed; by rewrite app_assoc, Hes, <- app_assoc.
  - split; [| by apply stopping_background].
    by rewrite (proj2 (proj2 (background_frame can_open b s))).
  - split; [| by apply (stopping_background can_open es late TraceSession.Spurious)].
    by destruct s as [q r fn ref [] j f].
Qed.

Lemma stopping_run can_open reference es late sched s s' :
  forallb TraceSession.is_during_stop sched = true ->
  TraceSession.session_start_time_ s = reference ->
  TraceSession.stopping can_open es late s ->
  TraceSession.run can_open sched s = Some s' ->
  TraceSession.stopping can_open es
    (late ++ TraceSession.submitted reference sched) s'.
Proof.
  revert late s. induction sched as [|a sched IH]; intros late s Hall Href Hs Hrun.
  - injection Hrun as <-. by rewrite app_nil_r.
  - cbn [forallb] in Hall. apply andb_prop in Hall as [Ha Hall].
    cbn [TraceSession.run] in Hrun.
    destruct (TraceSession.exec can_open a s) as [s1|] eqn:Hexec; [| done].
    destruct (stopping_exec _ _ _ _ _ _ _ Ha Href Hs Hexec) as [Href1 Hs1].
    change (a :: sched) with ([a] ++ sched).
    rewrite submitted_app, app_assoc. by eapply IH.
Qed.

Lemma is_consumer_during_stop sched :
  forallb TraceSession.is_consumer sched = true ->
  forallb TraceSession.is_during_stop sched = true.
Proof.
  induction sched as [|a sched IH]; [done |]. cbn [forallb].
  intros [Ha Hall]%andb_prop. rewrite (IH Hall), andb_true_r. by destruct a.
Qed.

Lemma submitted_consumer reference sched :
  forallb TraceSession.is_consumer sched = true ->
  TraceSession.submitted reference sched = [].
Proof.
  induction sched as [|a sched IH]; [done |]. cbn [forallb].
  intros [Ha Hall]%andb_prop. destruct a; try done; by apply IH.
Qed.

(** What a thread finds when its [join] returns. *)
Lemma stopping_joined can_open es late s :
  TraceSession.stopping can_open es late s ->
  TraceSession.consumer_pc s = TraceSession.Finished ->
  let s' := TraceSession.set_consumer_joinable false s in
  TraceSession.running s' = false /\
  TraceSession.consumer_pc s' = TraceSession.Finished /\
  TraceSession.consumer_joinable s' = false /\
  TraceSession.filename_ s' = TraceSession.filename_ s /\
  exists extra,
    late = extra ++ TraceSession.trace_queue s' /\
    TraceSession.file_holds (can_open (TraceSession.filename_ s)) (es ++ extra)
      (TraceSession.trace_file s').
Proof.
  intros (Hr & consumed & Hes & Hstream) Hpc.
  destruct s as [q r fn ref pc j f].
  cbn [TraceSession.running TraceSession.consumer_pc TraceSession.trace_file
       TraceSession.trace_queue TraceSession.filename_] in *.
  subst r pc. destruct Hstream as [[extra ->] Hfile].
  cbn. do 4 (split; [done |]). exists extra. split; [| done].
  rewrite <- app_assoc in Hes. by apply app_inv_head in Hes.
Qed.

Lemma stopping_return can_open es late s s' :
  TraceSession.stopping can_open es late s ->
  TraceSession.exec can_open TraceSession.StopReturn s = Some s' ->
  TraceSession.running s' = false /\
  TraceSession.consumer_pc s' = TraceSession.Finished /\
  TraceSession.consumer_joinable s' = false /\
  TraceSession.filename_ s' = TraceSession.filename_ s /\
  exists extra,
    late = extra ++ TraceSession.trace_queue s' /\
    TraceSession.file_holds (can_open (TraceSession.filename_ s)) (es ++ extra)
      (TraceSession.trace_file s').
Proof.
  intros Hs Hexec. cbn [TraceSession.exec] in Hexec.
  destruct (TraceSession.consumer_pc s) eqn:Hpc; try done.
  destruct (negb (TraceSession.running s) && TraceSession.consumer_joinable s);
    [| done].
  injection Hexec as <-. by apply stopping_joined.
Qed.

Lemma file_holds_persisted es s :
  TraceSession.file_holds true es (TraceSession.trace_file s) ->
  TraceSession.persisted es s.
Proof.
  intros (Ho & Hb & Hc). unfold TraceSession.persisted.
  do 3 (split; [done |]). intros Hnames. rewrite Hc, lines_render by done.
  split; [done |]. by rewrite length_fmap.
Qed.

(** *** [stop] on a session that nobody has stopped *)

Lemma stop_not_running can_open between during s :
  TraceSession.running s = false ->
  TraceSession.stop can_open between during s = Some s.
Proof. intros Hr. unfold TraceSession.stop. by rewrite Hr. Qed.

Lemma stop_at_notify can_open reference es between s :
  TraceSession.live_writer can_open reference es s ->
  let s3 := TraceSession.notify
              (TraceSession.backgrounds can_open between
                 (TraceSession.set_running false s)) in
  TraceSession.stopping can_open es [] s3 /\
  TraceSession.consumer_joinable s3 = true /\
  TraceSession.filename_ s3 = TraceSession.filename_ s.
Proof.
  intros Hlive s3. subst s3. rewrite (notify_background can_open).
  split; [| split].
  - apply stopping_background, stopping_backgrounds.
    by eapply stopping_clear.
  - rewrite (proj1 (proj2 (background_frame _ _ _))).
    rewrite (proj1 (proj2 (backgrounds_frame _ _ _))).
    destruct Hlive as (_ & Hj & _). by destruct s.
  - rewrite background_filename, backgrounds_filename. by destruct s.
Qed.

Lemma stop_live can_open reference es between during s s' :
  TraceSession.live_writer can_open reference es s ->
  TraceSession.stop can_open between during s = Some s' ->
  TraceSession.running s' = false /\
  TraceSession.consumer_pc s' = TraceSession.Finished /\
  TraceSession.consumer_joinable s' = false /\
  TraceSession.trace_queue s' = [] /\
  TraceSession.filename_ s' = TraceSession.filename_ s /\
  TraceSession.file_holds (can_open (TraceSession.filename_ s)) es
    (TraceSession.trace_file s').
Proof.
  intros Hlive Hstop.
  destruct (stop_at_notify _ _ _ between _ Hlive) as (Hs3 & Hj3 & Hfn3).
  unfold TraceSession.stop in Hstop.
  rewrite (proj1 Hlive) in Hstop. cbv zeta in Hstop.
  rewrite Hj3 in Hstop. unfold TraceSession.join in Hstop.
  set (s3 := TraceSession.notify _) in *.
  pose proof (stopping_backgrounds _ _ _ during _ Hs3) as Hs4.
  destruct (TraceSession.consumer_pc (TraceSession.backgrounds can_open during s3))
    eqn:Hpc; try done.
  injection Hstop as <-.
  destruct (stopping_joined _ _ _ _ Hs4 Hpc)
    as (Hr & Hpc' & Hj & Hfn & extra & Hlate & Hfile).
  symmetry in Hlate. apply app_eq_nil in Hlate as [-> Hq].
  rewrite app_nil_r in Hfile.
  rewrite backgrounds_filename, Hfn3 in Hfn, Hfile.
  do 5 (split; [done |]). exact Hfile.
Qed.

(** *** [stop] returns *)

Lemma spurious_awake can_open n s :
  TraceSession.steps_to_finish s = Some n ->
  TraceSession.background can_open TraceSession.Spurious s = s.
Proof. destruct s as [q r fn ref [] j f]; done. Qed.

Lemma step_progress can_open flushes n s :
  TraceSession.running s = false ->
  TraceSession.steps_to_finish s = Some n ->
  exists n',
    TraceSession.steps_to_finish
      (TraceSession.background can_open (TraceSession.Step flushes) s) = Some n' /\
    (n' <= Nat.pred n)%nat.
Proof.
  destruct s as [q r fn ref pc j f]. cbn [TraceSession.running]. intros ->.
  destruct pc; destruct q as [|e q]; cbn; intros [= <-]; eexists;
    (split; [reflexivity |]); cbn; lia.
Qed.

Lemma awake_finishes can_open n during s :
  TraceSession.running s = false ->
  TraceSession.steps_to_finish s = Some n ->
  (n <= TraceSession.consumer_steps during)%nat ->
  TraceSession.consumer_pc (TraceSession.backgrounds can_open during s) =
    TraceSession.Finished.
Proof.
  revert n s. induction during as [|[flushes |] during IH]; intros n s Hr Hn Hle.
  - cbn in Hle. assert (n = O) as -> by lia.
    by destruct s as [q ? fn ref [] j f]; try destruct q.
  - rewrite backgrounds_cons.
    destruct (step_progress can_open flushes _ _ Hr Hn) as (n' & Hn' & Hle').
    eapply IH; [| exact Hn' |].
    + by rewrite (proj1 (background_frame _ _ _)).
    + cbn [TraceSession.consumer_steps] in Hle. lia.
  - rewrite backgrounds_cons, (spurious_awake _ _ _ Hn). by eapply IH.
Qed.

Lemma steps_to_finish_bound n s :
  TraceSession.steps_to_finish s = Some n -> (n <= 4)%nat.
Proof.
  destruct s as [q r fn ref [] j f]; try destruct q; cbn; intros [= <-]; lia.
Qed.

(** The consumer is not in the window at the time of the notification. *)
Lemma stop_live_returns can_open reference es between during s :
  TraceSession.live_writer can_open reference es s ->
  TraceSession.consumer_pc
    (TraceSession.backgrounds can_open between (TraceSession.set_running false s))
    <> TraceSession.AtBlock ->
  (4 <= TraceSession.consumer_steps during)%nat ->
  exists s', TraceSession.stop can_open between during s = Some s'.
Proof.
  intros Hlive Hpc Hsteps.
  destruct (stop_at_notify _ _ _ between _ Hlive) as (Hs3 & Hj3 & _).
  unfold TraceSession.stop. rewrite (proj1 Hlive). cbv zeta.
  rewrite Hj3. unfold TraceSession.join.
  set (s2 := TraceSession.backgrounds can_open between _) in *.
  assert (exists n, TraceSession.steps_to_finish (TraceSession.notify s2) = Some n)
    as [n Hn].
  { destruct s2 as [q r fn ref [] j f]; try done; by eexists. }
  rewrite (awake_finishes can_open n during).
  - by eexists.
  - by destruct Hs3.
  - done.
  - apply steps_to_finish_bound in Hn. lia.
Qed.



(** A consumer that has slept through the notification finishes once it wakes
    up by itself. *)
Lemma stop_woken_returns can_open reference es between flushes during s :
  TraceSession.live_writer can_open reference es s ->
  (4 <= TraceSession.consumer_steps during)%nat ->
  exists s',
    TraceSession.stop can_open between
      (TraceSession.Step flushes :: TraceSession.Spurious :: during) s = Some s'.
Proof.
  intros Hlive Hsteps.
  destruct (stop_at_notify _ _ _ between _ Hlive) as (Hs3 & Hj3 & _).
  unfold TraceSession.stop. rewrite (proj1 Hlive). cbv zeta.
  rewrite Hj3. unfold TraceSession.join.
  set (s3 := TraceSession.notify _) in *.
  rewrite !backgrounds_cons.
  set (s5 := TraceSession.background can_open TraceSession.Spurious _).
  assert (TraceSession.running s5 = false) as Hr5.
  { subst s5. rewrite !(proj1 (background_frame _ _ _)). by destruct Hs3. }
  assert (exists n, TraceSession.steps_to_finish s5 = Some n) as [n Hn].
  { subst s5. destruct Hs3 as [Hr3 _].
    destruct s3 as [q r fn ref pc j f]. cbn in Hr3. subst r.
    destruct pc; destruct q as [|e q]; cbn; by eexists. }
  rewrite (awake_finishes can_open n during _ Hr5 Hn).
  - by eexists.
  - apply steps_to_finish_bound in Hn. lia.
Qed.



(** The text of the events submitted to a live session is what its stream
    holds followed by the text of the queue. *)
Lemma live_writer_text can_open reference es s :
  TraceSession.live_writer can_open reference es s ->
  (if can_open (TraceSession.filename_ s) then render es else EmptyString) =
  stream_text (TraceSession.trace_file s) +:+
  (if can_open (TraceSession.filename_ s)
   then render (TraceSession.trace_queue s) else EmptyString).
Proof.
  intros (_ & _ & _ & Hpc & _ & consumed & -> & Hstream).
  destruct s as [q r fn ref pc j f].
  cbn [TraceSession.consumer_pc TraceSession.trace_file TraceSession.trace_queue
       TraceSession.filename_] in *.
  assert (stream_text f = if can_open fn then render consumed else EmptyString)
    as ->.
  { destruct pc; try (by destruct Hstream). destruct Hstream as [-> ->].
    by destruct (can_open fn). }
  destruct (can_open fn); [by rewrite render_app | done].
Qed.

(** ** C2 *)




(** ** C1 *)

(** C1, as stated, fails three times.  An event submitted while [stop] waits
    in its [join], after the consumer has left its loop, never reaches the
    file: one event submitted before [stop] returns, no line.  An event whose
    name holds a line feed takes two lines: one event, two lines, the first
    of them without offsets.  And when the destination cannot be opened the
    consumer takes the events off the queue all the same and they are
    dropped: one event, [stop] returns, nothing is written. *)
Lemma stop_misses_late_and_multiline_events :
  (let sched :=
     [TraceSession.Consumer (TraceSession.Step []);
      TraceSession.Consumer (TraceSession.Step []);
      TraceSession.StopClear; TraceSession.StopNotify;
      TraceSession.Consumer (TraceSession.Step []);
      TraceSession.Consumer (TraceSession.Step []);
      TraceSession.Submit "f" 0 50; TraceSession.StopReturn] in
   exists s',
     TraceSession.run (fun _ => true) sched (TraceSession.create "trace.log" 0)
       = Some s' /\
     length (TraceSession.submitted 0 sched) = 1%nat /\
     lines (contents (TraceSession.trace_file s')) = []) /\
  (let sched := [TraceSession.Submit ("a" +:+ line_feed +:+ "b") 0 50] in
   exists s s',
     TraceSession.run (fun _ => true) sched (TraceSession.create "trace.log" 0)
       = Some s /\
     TraceSession.stop (fun _ => true) []
       [TraceSession.Step []; TraceSession.Step [];
        TraceSession.Step []; TraceSession.Step []] s = Some s' /\
     length (TraceSession.submitted 0 sched) = 1%nat /\
     lines (contents (TraceSession.trace_file s')) = ["a"; "b 0 50"]) /\
  (let sched := [TraceSession.Submit "f" 0 50] in
   exists s s',
     TraceSession.run (fun _ => false) sched
       (TraceSession.create "missing/trace.log" 0) = Some s /\
     TraceSession.stop (fun _ => false) []
       [TraceSession.Step []; TraceSession.Step [];
        TraceSession.Step []; TraceSession.Step []] s = Some s' /\
     length (TraceSession.submitted 0 sched) = 1%nat /\
     TraceSession.trace_queue s' = [] /\
     lines (contents (TraceSession.trace_file s')) = []).
Proof.
  split; [| split]; cbv zeta.
  - eexists. split; [vm_compute; reflexivity |]. split; reflexivity.
  - eexists. eexists. split; [vm_compute; reflexivity |].
    split; [vm_compute; reflexivity |]. split; vm_compute; reflexivity.
  - eexists. eexists. split; [vm_compute; reflexivity |].
    split; [vm_compute; reflexivity |]. repeat split; vm_compute; reflexivity.
Qed.

(** C1 (amended): let the destination be one that could be opened.  For every
    interleaving of [register_trace] calls and actions of the consumer
    (spurious wake-ups included) that takes place before [stop] is called,
    once [stop] has returned the file is closed, nothing is left in the
    buffer, and the file holds the text of exactly the submitted events, in
    the order of their submission; when no event name holds a line feed,
    these are N lines for N events, the line of an event being
    [<name> <start_offset> <end_offset>].  This holds however the consumer is
    scheduled between [running = false], [notify_all] and the return of
    [join].  If producers go on submitting meanwhile, the file holds the
    events submitted before and the first of the later ones, each once, and
    the other later ones are left in the queue.  [stop] returns once the
    consumer has taken four steps, unless the consumer stood between the
    failed test of its wait condition and its sleep when [notify_all] came;
    then it returns once the consumer has woken up by itself. *)
Theorem stop_persists_submitted (can_open : string -> bool) (filename : string)
    (now : Z) (pre : list TraceSession.Action) :
  forallb TraceSession.is_live pre = true ->
  can_open filename = true ->
  exists s,
    TraceSession.run can_open pre (TraceSession.create filename now) = Some s /\
    (forall post s',
       forallb TraceSession.is_consumer post = true ->
       TraceSession.run can_open
         (TraceSession.StopClear :: post ++ [TraceSession.StopReturn]) s = Some s' ->
       TraceSession.persisted (TraceSession.submitted now pre) s') /\
    (forall between during s',
       TraceSession.stop can_open between during s = Some s' ->
       TraceSession.persisted (TraceSession.submitted now pre) s') /\
    (forall post s',
       forallb TraceSession.is_during_stop post = true ->
       TraceSession.run can_open
         (TraceSession.StopClear :: post ++ [TraceSession.StopReturn]) s = Some s' ->
       exists written,
         TraceSession.submitted now post = written ++ TraceSession.trace_queue s' /\
         TraceSession.persisted (TraceSession.submitted now pre ++ written) s') /\
    (forall between during,
       TraceSession.consumer_pc
         (TraceSession.backgrounds can_open between
            (TraceSession.set_running false s)) <> TraceSession.AtBlock ->
       (4 <= TraceSession.consumer_steps during)%nat ->
       exists s', TraceSession.stop can_open between during s = Some s') /\
    (forall between flushes during,
       (4 <= TraceSession.consumer_steps during)%nat ->
       exists s',
         TraceSession.stop can_open between
           (TraceSession.Step flushes :: TraceSession.Spurious :: during) s
         = Some s').
Proof.
  intros Hpre Hopen.
  destruct (live_writer_reached can_open filename now pre Hpre)
    as (s & Hrun & Hfn & Hlive).
  assert (forall post s',
            forallb TraceSession.is_during_stop post = true ->
            TraceSession.run can_open
              (TraceSession.StopClear :: post ++ [TraceSession.StopReturn]) s
              = Some s' ->
            exists written,
              TraceSession.submitted now post =
                written ++ TraceSession.trace_queue s' /\
              TraceSession.persisted (TraceSession.submitted now pre ++ written) s')
    as Hamong.
  { intros post s' Hpost Hstop.
    cbn [TraceSession.run TraceSession.exec] in Hstop.
    rewrite (proj1 Hlive), run_app in Hstop.
    destruct (TraceSession.run can_open post _) as [s1|] eqn:Hrun1; [| done].
    cbn [TraceSession.run] in Hstop.
    destruct (TraceSession.exec can_open TraceSession.StopReturn s1)
      as [s2|] eqn:Hret; [| done].
    injection Hstop as <-.
    pose proof (stopping_clear _ _ _ _ Hlive) as Hs0.
    assert (TraceSession.session_start_time_ (TraceSession.set_running false s)
            = now) as Href.
    { destruct Hlive as (_ & _ & Href & _). by destruct s. }
    pose proof (stopping_run _ _ _ _ _ _ _ Hpost Href Hs0 Hrun1) as Hs1.
    rewrite app_nil_l in Hs1.
    destruct (stopping_return _ _ _ _ _ Hs1 Hret)
      as (_ & _ & _ & _ & written & Hlate & Hfile).
    exists written. split; [done |]. apply file_holds_persisted.
    rewrite (run_filename _ _ _ _ Hrun1) in Hfile.
    cbn in Hfile. change (TraceSession.filename_ (TraceSession.set_running false s))
      with (TraceSession.filename_ s) in Hfile.
    by rewrite Hfn, Hopen in Hfile. }
  exists s. split; [done |]. split; [| split; [| split; [| split]]].
  - intros post s' Hpost Hstop.
    destruct (Hamong post s' (is_consumer_during_stop _ Hpost) Hstop)
      as (written & Hlate & Hp).
    rewrite (submitted_consumer now post Hpost) in Hlate.
    symmetry in Hlate. apply app_eq_nil in Hlate as [-> _].
    by rewrite app_nil_r in Hp.
  - intros between during s' Hstop.
    destruct (stop_live _ _ _ _ _ _ _ Hlive Hstop) as (_ & _ & _ & _ & _ & Hfile).
    apply file_holds_persisted. by rewrite Hfn, Hopen in Hfile.
  - exact Hamong.
  - intros between during Hpc Hsteps. by eapply stop_live_returns.
  - intros between flushes during Hsteps. by eapply stop_woken_returns.
Qed.

Lemma stop_persists_submitted_witness :
  exists s',
    TraceSession.stop (fun _ => true) []
      [TraceSession.Step [3%nat]; TraceSession.Spurious; TraceSession.Step [];
       TraceSession.Step []; TraceSession.Step []; TraceSession.Step []]
      (TraceSession.register_trace "b" 10 40
         (TraceSession.register_trace "a" 0 50
            (TraceSession.create "trace.log" 0))) = Some s' /\
    lines (contents (TraceSession.trace_file s')) = ["a 0 50"; "b 10 40"].
Proof.
  destruct (stop_persists_submitted (fun _ => true) "trace.log" 0
              [TraceSession.Submit "a" 0 50; TraceSession.Submit "b" 10 40]
              eq_refl eq_refl) as (s & Hrun & _ & Hstop & _ & _ & Hreturns).
  cbn [TraceSession.run TraceSession.exec] in Hrun. injection Hrun as <-.
  destruct (Hreturns [] [3%nat]
              [TraceSession.Step []; TraceSession.Step [];
               TraceSession.Step []; TraceSession.Step []]) as (s' & Hs').
  - simpl. lia.
  - exists s'. split; [exact Hs' |].
    destruct (Hstop _ _ _ Hs') as (_ & _ & _ & Hlines).
    refine (proj1 (Hlines _)).
    repeat constructor.
Defined.

(** ** C7 *)

(** C7, as stated, fails when the destination cannot be opened: the first
    [stop] returns, the session is terminated and the queue is empty, but
    the event that was queued when [stop] was called has reached no
    destination. *)
Lemma stop_drops_events_of_unopened_destination :
  let can_open := fun _ : string => false in
  let s := TraceSession.register_trace "testFunction" 100 200
             (TraceSession.create "missing/test_trace_event.log" 0) in
  exists s1,
    TraceSession.stop can_open []
      [TraceSession.Step []; TraceSession.Step [];
       TraceSession.Step []; TraceSession.Step []] s = Some s1 /\
    length (TraceSession.trace_queue s) = 1%nat /\
    TraceSession.trace_queue s1 = [] /\
    TraceSession.running s1 = false /\
    TraceSession.consumer_pc s1 = TraceSession.Finished /\
    is_open (TraceSession.trace_file s1) = false /\
    stream_text (TraceSession.trace_file s1) = EmptyString.
Proof.
  cbv zeta. eexists. split; [vm_compute; reflexivity |].
  repeat split; vm_compute; reflexivity.
Qed.

(** C7 (amended): [stop] is idempotent.  Whatever the state, a [stop] after a
    [stop] that has returned changes nothing and waits for nothing, and so
    does the destructor.  When the first [stop] returns on a session that
    nobody had stopped, the session is terminated: [running] is false, the
    consumer has finished and is joined, the queue is empty, the stream is
    closed and its buffer empty; if the destination could be opened, the
    file holds what the stream held plus the text of the events that were
    queued, which is the text of all the events submitted; if not, it holds
    nothing.  With producers that go on submitting while [stop] waits, the
    session is terminated all the same, the file of a destination that could
    be opened holds the events submitted before [stop] and the first of the
    later ones, the others stay in the queue, and [stop] entered again
    changes nothing.  [stop] returns once the consumer has taken four steps,
    unless the consumer stood between the failed test of its wait condition
    and its sleep when [notify_all] came; then it returns once the consumer
    has woken up by itself. *)
Theorem stop_idempotent (can_open : string -> bool) :
  (forall s between during s1,
     TraceSession.stop can_open between during s = Some s1 ->
     forall between' during',
       TraceSession.stop can_open between' during' s1 = Some s1 /\
       TraceSession.destroy can_open between' during' s1 = Some s1) /\
  (forall filename now pre,
     forallb TraceSession.is_live pre = true ->
     exists s,
       TraceSession.run can_open pre (TraceSession.create filename now) = Some s /\
       (forall between during s1,
          TraceSession.stop can_open between during s = Some s1 ->
          TraceSession.running s1 = false /\
          TraceSession.consumer_pc s1 = TraceSession.Finished /\
          TraceSession.consumer_joinable s1 = false /\
          TraceSession.trace_queue s1 = [] /\
          is_open (TraceSession.trace_file s1) = false /\
          buffer (TraceSession.trace_file s1) = EmptyString /\
          contents (TraceSession.trace_file s1) =
            (if can_open filename
             then render (TraceSession.submitted now pre) else EmptyString) /\
          contents (TraceSession.trace_file s1) =
            stream_text (TraceSession.trace_file s) +:+
            (if can_open filename
             then render (TraceSession.trace_queue s) else EmptyString)) /\
       (forall post s1,
          forallb TraceSession.is_during_stop post = true ->
          TraceSession.run can_open
            (TraceSession.StopClear :: post ++ [TraceSession.StopReturn]) s = Some s1 ->
          TraceSession.running s1 = false /\
          TraceSession.consumer_pc s1 = TraceSession.Finished /\
          TraceSession.consumer_joinable s1 = false /\
          is_open (TraceSession.trace_file s1) = false /\
          buffer (TraceSession.trace_file s1) = EmptyString /\
          (exists written,
             TraceSession.submitted now post =
               written ++ TraceSession.trace_queue s1 /\
             contents (TraceSession.trace_file s1) =
               (if can_open filename
                then render (TraceSession.submitted now pre ++ written)
                else EmptyString)) /\
          TraceSession.exec can_open TraceSession.StopClear s1 = Some s1) /\
       (forall between during,
          TraceSession.consumer_pc
            (TraceSession.backgrounds can_open between
               (TraceSession.set_running false s)) <> TraceSession.AtBlock ->
          (4 <= TraceSession.consumer_steps during)%nat ->
          exists s1, TraceSession.stop can_open between during s = Some s1) /\
       (forall between flushes during,
          (4 <= TraceSession.consumer_steps during)%nat ->
          exists s1,
            TraceSession.stop can_open between
              (TraceSession.Step flushes :: TraceSession.Spurious :: during) s
            = Some s1)).
Proof.
  split.
  - intros s between during s1 Hstop between' during'.
    assert (TraceSession.running s1 = false) as Hr.
    { unfold TraceSession.stop in Hstop.
      destruct (TraceSession.running s) eqn:Hrs; [| congruence].
      cbv zeta in Hstop.
      set (s3 := TraceSession.notify _) in *.
      assert (TraceSession.running s3 = false) as Hr3.
      { subst s3. rewrite (notify_background can_open).
        rewrite (proj1 (background_frame _ _ _)).
        rewrite (proj1 (backgrounds_frame _ _ _)). by destruct s. }
      destruct (TraceSession.consumer_joinable s3).
      - unfold TraceSession.join in Hstop.
        destruct (TraceSession.consumer_pc _); try done.
        injection Hstop as <-.
        change (TraceSession.running (TraceSession.backgrounds can_open during s3)
                = false).
        by rewrite (proj1 (backgrounds_frame _ _ _)).
      - by injection Hstop as <-. }
    unfold TraceSession.destroy. by rewrite !stop_not_running.
  - intros filename now pre Hpre.
    destruct (live_writer_reached can_open filename now pre Hpre)
      as (s & Hrun & Hfn & Hlive).
    exists s. split; [done |]. split; [| split; [| split]].
    + intros between during s1 Hstop.
      destruct (stop_live _ _ _ _ _ _ _ Hlive Hstop)
        as (Hr & Hpc & Hj & Hq & _ & Ho & Hb & Hc).
      do 6 (split; [done |]). rewrite Hfn in Hc. split; [done |].
      rewrite Hc. pose proof (live_writer_text _ _ _ _ Hlive) as Htext.
      by rewrite Hfn in Htext.
    + intros post s1 Hpost Hstop.
      cbn [TraceSession.run TraceSession.exec] in Hstop.
      rewrite (proj1 Hlive), run_app in Hstop.
      destruct (TraceSession.run can_open post _) as [s0|] eqn:Hrun1; [| done].
      cbn [TraceSession.run] in Hstop.
      destruct (TraceSession.exec can_open TraceSession.StopReturn s0)
        as [s2|] eqn:Hret; [| done].
      injection Hstop as <-.
      pose proof (stopping_clear _ _ _ _ Hlive) as Hs0.
      assert (TraceSession.session_start_time_ (TraceSession.set_running false s)
              = now) as Href.
      { destruct Hlive as (_ & _ & Href & _). by destruct s. }
      pose proof (stopping_run _ _ _ _ _ _ _ Hpost Href Hs0 Hrun1) as Hs1.
      rewrite app_nil_l in Hs1.
      destruct (stopping_return _ _ _ _ _ Hs1 Hret)
        as (Hr & Hpc & Hj & _ & written & Hlate & Ho & Hb & Hc).
      rewrite (run_filename _ _ _ _ Hrun1) in Hc.
      change (TraceSession.filename_ (TraceSession.set_running false s))
        with (TraceSession.filename_ s) in Hc.
      rewrite Hfn in Hc.
      do 5 (split; [done |]). split; [by exists written |].
      cbn [TraceSession.exec]. by rewrite Hr.
    + intros between during Hpc Hsteps. by eapply stop_live_returns.
    + intros between flushes during Hsteps. by eapply stop_woken_returns.
Qed.

Lemma stop_idempotent_witness :
  exists s1,
    TraceSession.stop (fun _ => true) []
      [TraceSession.Step []; TraceSession.Step [];
       TraceSession.Step []; TraceSession.Step []]
      (TraceSession.register_trace "testFunction" 100 200
         (TraceSession.create "test_trace_event.log" 0)) = Some s1 /\
    TraceSession.stop (fun _ => true) [] [] s1 = Some s1 /\
    TraceSession.destroy (fun _ => true) [] [] s1 = Some s1 /\
    TraceSession.running s1 = false /\
    contents (TraceSession.trace_file s1) = "testFunction 100 200" +:+ line_feed.
Proof.
  destruct (stop_idempotent (fun _ => true)) as [Htwice Hfirst].
  destruct (Hfirst "test_trace_event.log" 0
              [TraceSession.Submit "testFunction" 100 200] eq_refl)
    as (s & Hrun & Hterm & _ & Hreturns & _).
  cbn [TraceSession.run TraceSession.exec] in Hrun. injection Hrun as <-.
  destruct (Hreturns []
              [TraceSession.Step []; TraceSession.Step [];
               TraceSession.Step []; TraceSession.Step []]) as (s1 & Hs1).
  - discriminate.
  - simpl. lia.
  - exists s1. destruct (Htwice _ _ _ _ Hs1 [] []) as [Hstop2 Hdestroy].
    destruct (Hterm _ _ _ Hs1) as (Hr & _ & _ & _ & _ & _ & Hc & _).
    split; [exact Hs1 |]. split; [exact Hstop2 |]. split; [exact Hdestroy |].
    split; [exact Hr |]. exact Hc.
Defined.
(** ** TraceGuard: the derived name *)

Lemma find_none c s : StdString.find c s = None <-> has_char c s = false.
Proof.
  induction s as [|d s IH]; [done |].
  cbn [StdString.find has_char]. destruct (Ascii.eqb d c); [done |].
  cbn [orb]. rewrite <- IH. by destruct (StdString.find c s).
Qed.

Lemma find_before_first c s pos :
  StdString.find c s = Some pos -> StdString.take pos s = before_first c s.
Proof.
  revert pos. induction s as [|d s IH]; intros pos; [done |].
  cbn [StdString.find before_first]. destruct (Ascii.eqb d c).
  - by intros [= <-].
  - destruct (StdString.find c s) as [i|]; [| done].
    intros [= <-]. cbn [StdString.take]. by rewrite (IH i).
Qed.

Lemma before_first_absent c s : has_char c s = false -> before_first c s = s.
Proof.
  induction s as [|d s IH]; [done |].
  cbn [has_char before_first]. intros [Hd Hs]%orb_false_elim.
  by rewrite Hd, IH.
Qed.

Lemma rfind_none c s : StdString.rfind c s = None <-> has_char c s = false.
Proof.
  induction s as [|d s IH]; [done |].
  cbn [StdString.rfind has_char].
  destruct (StdString.rfind c s) as [i|].
  - destruct (has_char c s); [| by destruct IH as [_ IH]; discriminate IH].
    by rewrite orb_true_r.
  - rewrite (proj1 IH eq_refl), orb_false_r. by destruct (Ascii.eqb d c).
Qed.

Lemma rfind_after_last c s pos :
  StdString.rfind c s = Some pos ->
  (pos < String.length s)%nat /\ StdString.drop (S pos) s = after_last c s.
Proof.
  revert pos. induction s as [|d s IH]; intros pos; [done |].
  cbn [StdString.rfind after_last String.length].
  destruct (StdString.rfind c s) as [i|] eqn:Hr.
  - intros [= <-]. destruct (IH i eq_refl) as [Hlt Hdrop].
    assert (has_char c s = true) as ->.
    { destruct (has_char c s) eqn:Hc; [done |].
      apply rfind_none in Hc. congruence. }
    split; [lia |]. done.
  - apply rfind_none in Hr. rewrite Hr.
    destruct (Ascii.eqb d c); [| done].
    intros [= <-]. split; [lia | done].
Qed.

Lemma after_last_absent c s : has_char c s = false -> after_last c s = s.
Proof.
  destruct s as [|d s]; [done |].
  cbn [has_char after_last]. intros [Hd Hs]%orb_false_elim. by rewrite Hs, Hd.
Qed.

Lemma has_char_before_first c s : has_char c (before_first c s) = false.
Proof.
  induction s as [|d s IH]; [done |].
  cbn [before_first]. destruct (Ascii.eqb d c) eqn:Hd; [done |].
  cbn [has_char]. by rewrite Hd, IH.
Qed.

Lemma has_char_after_last c s : has_char c (after_last c s) = false.
Proof.
  induction s as [|d s IH]; [done |].
  cbn [after_last]. destruct (has_char c s) eqn:Hs; [done |].
  destruct (Ascii.eqb d c) eqn:Hd; [done |].
  cbn [has_char]. by rewrite Hd, Hs.
Qed.

Lemma has_char_after_last_other c d s :
  has_char d s = false -> has_char d (after_last c s) = false.
Proof.
  induction s as [|e s IH]; [done |].
  cbn [has_char after_last]. intros [He Hs]%orb_false_elim.
  destruct (has_char c s); [by apply IH |].
  destruct (Ascii.eqb e c); [done |].
  cbn [has_char]. by rewrite He, Hs.
Qed.

Lemma substr_prefix pos s :
  StdString.substr 0 (Some pos) s = Some (StdString.take pos s).
Proof. unfold StdString.substr. by destruct s. Qed.

Lemma substr_suffix pos s :
  (pos <= String.length s)%nat ->
  StdString.substr pos None s = Some (StdString.drop pos s).
Proof.
  intros Hpos. unfold StdString.substr.
  by rewrite (proj2 (Nat.ltb_ge _ _) Hpos).
Qed.

(** C8: [extract_trace_name] never throws and returns the signature cut
    before its first ['('] and then after the last space that is left; the
    result holds neither ['('] nor a space, and a signature that holds neither
    comes back as it is. *)
Theorem extract_trace_name_derived (s : string) :
  TraceGuard.extract_trace_name s = Some (derived_name s) /\
  has_char "(" (derived_name s) = false /\
  has_char " " (derived_name s) = false /\
  (has_char "(" s = false -> has_char " " s = false ->
   TraceGuard.extract_trace_name s = Some s).
Proof.
  assert (TraceGuard.extract_trace_name s = Some (derived_name s)) as Heq.
  { unfold TraceGuard.extract_trace_name, derived_name.
    assert (match StdString.find "(" s with
            | Some pos => StdString.substr 0 (Some pos) s
            | None => Some s
            end = Some (before_first "(" s)) as ->.
    { destruct (StdString.find "(" s) as [pos|] eqn:Hf.
      - by rewrite substr_prefix, (find_before_first _ _ _ Hf).
      - apply find_none in Hf. by rewrite before_first_absent. }
    destruct (StdString.rfind " " (before_first "(" s)) as [pos|] eqn:Hr.
    - destruct (rfind_after_last _ _ _ Hr) as [Hlt Hdrop].
      rewrite substr_suffix by lia. by rewrite Nat.add_1_r, Hdrop.
    - apply rfind_none in Hr. by rewrite after_last_absent. }
  split; [done |]. split; [| split].
  - unfold derived_name. apply has_char_after_last_other, has_char_before_first.
  - unfold derived_name. apply has_char_after_last.
  - intros Hparen Hspace. rewrite Heq. unfold derived_name.
    by rewrite before_first_absent, after_last_absent.
Qed.

Lemma extract_trace_name_derived_witness :
  TraceGuard.extract_trace_name "function_1" = Some "function_1".
Proof.
  refine (proj2 (proj2 (proj2 (extract_trace_name_derived "function_1"))) _ _);
    reflexivity.
Defined.

(** The two signatures of the repository's test, and a signature as
    [__PRETTY_FUNCTION__] gives it. *)
Example extract_trace_name_test_1 :
  TraceGuard.extract_trace_name "function_1(std::string args)" = Some "function_1".
Proof. reflexivity. Qed.

Example extract_trace_name_test_2 :
  TraceGuard.extract_trace_name "function_1()" = Some "function_1".
Proof. reflexivity. Qed.

Example extract_trace_name_pretty_function :
  TraceGuard.extract_trace_name "void ProducerNode::timer_callback()" =
  Some "ProducerNode::timer_callback".
Proof. reflexivity. Qed.

(** ** NamedSharedTrace: the two calls *)

Lemma vector_size_set v i x : vector_size (vector_set v i x) = vector_size v.
Proof. unfold vector_size, vector_set. by rewrite length_insert. Qed.

Lemma vector_get_set_eq v i x :
  0 <= i < vector_size v -> vector_get (vector_set v i x) i = x.
Proof.
  unfold vector_size, vector_get, vector_set. intros Hi.
  rewrite list_lookup_insert_eq by lia. done.
Qed.

Lemma vector_get_set_ne v i j x :
  0 <= i -> 0 <= j -> i <> j -> vector_get (vector_set v i x) j = vector_get v j.
Proof.
  unfold vector_get, vector_set. intros Hi Hj Hne.
  rewrite list_lookup_insert_ne by lia. done.
Qed.

Lemma size_t_succ x : 0 <= x -> x + 1 < SizeT.modulus -> SizeT.add x 1 = x + 1.
Proof. intros. unfold SizeT.add. apply size_t_wrap_in_range. split; lia. Qed.

Lemma size_t_pred x : 0 < x < SizeT.modulus -> SizeT.sub x 1 = x - 1.
Proof. intros. unfold SizeT.sub. apply size_t_wrap_in_range. split; lia. Qed.

Lemma start_full now tr w :
  NamedSharedTrace.capacity tr <= NamedSharedTrace.elements_ tr ->
  NamedSharedTrace.start now tr w = (tr, warn NamedSharedTrace.full_warning w).
Proof.
  intros Hfull. unfold NamedSharedTrace.start.
  unfold NamedSharedTrace.capacity in Hfull.
  by rewrite (proj2 (Z.leb_le _ _) Hfull).
Qed.

Lemma start_accepted now tr w :
  NamedSharedTrace.elements_ tr < NamedSharedTrace.capacity tr ->
  NamedSharedTrace.start now tr w =
  ({| NamedSharedTrace.session_ := NamedSharedTrace.session_ tr;
      NamedSharedTrace.trace_name_ := NamedSharedTrace.trace_name_ tr;
      NamedSharedTrace.start_times_ :=
        vector_set (NamedSharedTrace.start_times_ tr)
          (NamedSharedTrace.counter_push_ tr) now;
      NamedSharedTrace.counter_push_ :=
        SizeT.add (NamedSharedTrace.counter_push_ tr) 1
          mod NamedSharedTrace.capacity tr;
      NamedSharedTrace.counter_pop_ := NamedSharedTrace.counter_pop_ tr;
      NamedSharedTrace.elements_ := SizeT.add (NamedSharedTrace.elements_ tr) 1 |},
   w).
Proof.
  intros Hroom. unfold NamedSharedTrace.start.
  unfold NamedSharedTrace.capacity in *.
  rewrite (proj2 (Z.leb_gt _ _) Hroom). by rewrite vector_size_set.
Qed.

Lemma end_empty now tr w :
  NamedSharedTrace.elements_ tr = 0 ->
  NamedSharedTrace.end_ now tr w = (tr, warn NamedSharedTrace.unmatched_warning w).
Proof. intros Hel. unfold NamedSharedTrace.end_. by rewrite Hel. Qed.

Lemma end_accepted now tr w :
  NamedSharedTrace.elements_ tr <> 0 ->
  NamedSharedTrace.end_ now tr w =
  ({| NamedSharedTrace.session_ := NamedSharedTrace.session_ tr;
      NamedSharedTrace.trace_name_ := NamedSharedTrace.trace_name_ tr;
      NamedSharedTrace.start_times_ := NamedSharedTrace.start_times_ tr;
      NamedSharedTrace.counter_push_ := NamedSharedTrace.counter_push_ tr;
      NamedSharedTrace.counter_pop_ :=
        SizeT.add (NamedSharedTrace.counter_pop_ tr) 1
          mod NamedSharedTrace.capacity tr;
      NamedSharedTrace.elements_ := SizeT.sub (NamedSharedTrace.elements_ tr) 1 |},
   register_trace_at (NamedSharedTrace.session_ tr) (NamedSharedTrace.trace_name_ tr)
     (vector_get (NamedSharedTrace.start_times_ tr) (NamedSharedTrace.counter_pop_ tr))
     now w).
Proof.
  intros Hel. unfold NamedSharedTrace.end_.
  by rewrite (proj2 (Z.eqb_neq _ _) Hel).
Qed.

(** Unfolds the invariants of a trace given by its fields. *)
Ltac trace_fields :=
  unfold NamedSharedTrace.consistent, NamedSharedTrace.well_typed,
    NamedSharedTrace.live_count_bounded, NamedSharedTrace.cursors_coherent,
    NamedSharedTrace.capacity, SizeT.in_range, SizeT.modulus in *;
  cbn [NamedSharedTrace.session_ NamedSharedTrace.trace_name_
       NamedSharedTrace.start_times_ NamedSharedTrace.counter_push_
       NamedSharedTrace.counter_pop_ NamedSharedTrace.elements_ fst snd] in *.

Lemma coherent_start now tr w :
  NamedSharedTrace.well_typed tr ->
  NamedSharedTrace.cursors_coherent tr ->
  NamedSharedTrace.well_typed (NamedSharedTrace.start now tr w).1 /\
  NamedSharedTrace.cursors_coherent (NamedSharedTrace.start now tr w).1.
Proof.
  intros Hwt Hco.
  destruct (Z_lt_le_dec (NamedSharedTrace.elements_ tr) (NamedSharedTrace.capacity tr))
    as [Hroom | Hfull].
  - rewrite start_accepted by done.
    destruct tr as [a name st push pop el]. trace_fields.
    rewrite vector_size_set.
    set (C := vector_size st) in *.
    destruct Hwt as (Hpush & Hpop & Hel & HC).
    destruct Hco as (Heq & HpushC & HpopC).
    rewrite (size_t_succ push), (size_t_succ el) by (unfold SizeT.modulus; lia).
    pose proof (Z.mod_pos_bound (push + 1) C ltac:(lia)) as Hb.
    repeat split; try lia.
    rewrite Heq, Zplus_mod_idemp_l. f_equal. lia.
  - rewrite start_full by done. done.
Qed.

Lemma coherent_end now tr w :
  NamedSharedTrace.well_typed tr ->
  NamedSharedTrace.cursors_coherent tr ->
  NamedSharedTrace.well_typed (NamedSharedTrace.end_ now tr w).1 /\
  NamedSharedTrace.cursors_coherent (NamedSharedTrace.end_ now tr w).1.
Proof.
  intros Hwt Hco.
  destruct (decide (NamedSharedTrace.elements_ tr = 0)) as [Hel0 | Hel0].
  - rewrite end_empty by done. done.
  - rewrite end_accepted by done.
    destruct tr as [a name st push pop el]. trace_fields.
    set (C := vector_size st) in *.
    destruct Hwt as (Hpush & Hpop & Hel & HC).
    destruct Hco as (Heq & HpushC & HpopC).
    rewrite (size_t_succ pop), (size_t_pred el) by (unfold SizeT.modulus; lia).
    pose proof (Z.mod_pos_bound (pop + 1) C ltac:(lia)) as Hb.
    repeat split; try lia.
    rewrite Zplus_mod_idemp_l, Heq. f_equal. lia.
Qed.

Lemma bounded_start now tr w :
  SizeT.in_range (NamedSharedTrace.capacity tr) ->
  NamedSharedTrace.live_count_bounded tr ->
  NamedSharedTrace.live_count_bounded (NamedSharedTrace.start now tr w).1 /\
  NamedSharedTrace.capacity (NamedSharedTrace.start now tr w).1 =
    NamedSharedTrace.capacity tr.
Proof.
  intros HC Hb.
  destruct (Z_lt_le_dec (NamedSharedTrace.elements_ tr) (NamedSharedTrace.capacity tr))
    as [Hroom | Hfull].
  - rewrite start_accepted by done.
    destruct tr as [a name st push pop el]. trace_fields.
    rewrite vector_size_set.
    rewrite (size_t_succ el) by (unfold SizeT.modulus; lia). lia.
  - rewrite start_full by done. done.
Qed.

Lemma bounded_end now tr w :
  SizeT.in_range (NamedSharedTrace.capacity tr) ->
  NamedSharedTrace.live_count_bounded tr ->
  NamedSharedTrace.live_count_bounded (NamedSharedTrace.end_ now tr w).1 /\
  NamedSharedTrace.capacity (NamedSharedTrace.end_ now tr w).1 =
    NamedSharedTrace.capacity tr.
Proof.
  intros HC Hb.
  destruct (decide (NamedSharedTrace.elements_ tr = 0)) as [Hel0 | Hel0].
  - rewrite end_empty by done. done.
  - rewrite end_accepted by done.
    destruct tr as [a name st push pop el]. trace_fields.
    rewrite (size_t_pred el) by (unfold SizeT.modulus; lia). lia.
Qed.

Lemma consistent_create session name :
  NamedSharedTrace.consistent (NamedSharedTrace.create session name) /\
  NamedSharedTrace.capacity (NamedSharedTrace.create session name) = TRACE_SIZE_INIT.
Proof.
  unfold NamedSharedTrace.create. trace_fields.
  unfold vector_size. rewrite length_replicate.
  unfold TRACE_SIZE_INIT. cbn. repeat split; lia.
Qed.

(** ** NamedSharedTrace: the ring as a queue *)

Lemma mod_shift_ne (from k C : Z) :
  0 <= from < C -> 0 < k < C -> (from + k) mod C <> from.
Proof.
  intros Hfrom Hk Heq.
  destruct (Z_lt_le_dec (from + k) C) as [Hlt | Hge].
  - rewrite Z.mod_small in Heq by lia. lia.
  - replace (from + k) with ((from + k - C) + 1 * C) in Heq by lia.
    rewrite Z_mod_plus_full, Z.mod_small in Heq by lia. lia.
Qed.

Lemma length_ring_read v from n :
  length (NamedSharedTrace.ring_read v from n) = n.
Proof.
  revert from. induction n as [|n IH]; intros from; [done |].
  cbn [NamedSharedTrace.ring_read length]. by rewrite IH.
Qed.

Lemma ring_read_snoc v from n now :
  0 <= from < vector_size v ->
  Z.of_nat n < vector_size v ->
  vector_size v < SizeT.modulus ->
  NamedSharedTrace.ring_read
    (vector_set v ((from + Z.of_nat n) mod vector_size v) now) from (S n) =
  NamedSharedTrace.ring_read v from n ++ [now].
Proof.
  set (C := vector_size v). intros Hfrom Hn HC.
  revert from Hfrom. induction n as [|n IH]; intros from Hfrom.
  - cbn [NamedSharedTrace.ring_read app].
    rewrite Z.add_0_r, Z.mod_small by done.
    by rewrite vector_get_set_eq.
  - remember (S n) as m eqn:Hm.
    cbn [NamedSharedTrace.ring_read]. subst m.
    rewrite vector_size_set. fold C.
    rewrite size_t_succ by lia.
    pose proof (Z.mod_pos_bound (from + 1) C ltac:(lia)) as Hb.
    pose proof (Z.mod_pos_bound (from + Z.of_nat (S n)) C ltac:(lia)) as Hb'.
    rewrite vector_get_set_ne; [| lia | lia | apply mod_shift_ne; lia].
    replace ((from + Z.of_nat (S n)) mod C)
      with (((from + 1) mod C + Z.of_nat n) mod C)
      by (rewrite Zplus_mod_idemp_l; f_equal; lia).
    rewrite IH by lia.
    change (NamedSharedTrace.ring_read v from (S n))
      with (vector_get v from ::
            NamedSharedTrace.ring_read v (SizeT.add from 1 mod vector_size v) n).
    fold C. rewrite size_t_succ by lia. done.
Qed.

Lemma length_pending tr :
  length (NamedSharedTrace.pending tr) = Z.to_nat (NamedSharedTrace.elements_ tr).
Proof. apply length_ring_read. Qed.

Lemma pending_start now tr w :
  NamedSharedTrace.consistent tr ->
  NamedSharedTrace.elements_ tr < NamedSharedTrace.capacity tr ->
  NamedSharedTrace.pending (NamedSharedTrace.start now tr w).1 =
  NamedSharedTrace.pending tr ++ [now].
Proof.
  intros (Hwt & Hb & Hco) Hroom. rewrite start_accepted by done.
  destruct tr as [a name st push pop el]. unfold NamedSharedTrace.pending.
  trace_fields.
  destruct Hwt as (Hpush & Hpop & Hel & HC).
  destruct Hco as (Heq & HpushC & HpopC).
  rewrite size_t_succ by (unfold SizeT.modulus; lia).
  replace (Z.to_nat (el + 1)) with (S (Z.to_nat el)) by lia.
  rewrite Heq.
  replace el with (Z.of_nat (Z.to_nat el)) at 1 by lia.
  apply ring_read_snoc; unfold SizeT.modulus; lia.
Qed.

Lemma pending_end now tr w :
  NamedSharedTrace.consistent tr ->
  NamedSharedTrace.elements_ tr <> 0 ->
  NamedSharedTrace.pending tr =
  vector_get (NamedSharedTrace.start_times_ tr) (NamedSharedTrace.counter_pop_ tr)
    :: NamedSharedTrace.pending (NamedSharedTrace.end_ now tr w).1.
Proof.
  intros (Hwt & Hb & Hco) Hel0. rewrite end_accepted by done.
  destruct tr as [a name st push pop el]. unfold NamedSharedTrace.pending.
  trace_fields.
  destruct Hwt as (Hpush & Hpop & Hel & HC).
  rewrite size_t_pred by (unfold SizeT.modulus; lia).
  replace (Z.to_nat el) with (S (Z.to_nat (el - 1))) by lia.
  reflexivity.
Qed.

Lemma consistent_start now tr w :
  NamedSharedTrace.consistent tr ->
  NamedSharedTrace.consistent (NamedSharedTrace.start now tr w).1 /\
  NamedSharedTrace.capacity (NamedSharedTrace.start now tr w).1 =
    NamedSharedTrace.capacity tr.
Proof.
  intros (Hwt & Hb & Hco).
  destruct (coherent_start now tr w Hwt Hco) as [Hwt' Hco'].
  destruct (bounded_start now tr w) as [Hb' HC']; [apply Hwt | done |].
  done.
Qed.

Lemma consistent_end now tr w :
  NamedSharedTrace.consistent tr ->
  NamedSharedTrace.consistent (NamedSharedTrace.end_ now tr w).1 /\
  NamedSharedTrace.capacity (NamedSharedTrace.end_ now tr w).1 =
    NamedSharedTrace.capacity tr.
Proof.
  intros (Hwt & Hb & Hco).
  destruct (coherent_end now tr w Hwt Hco) as [Hwt' Hco'].
  destruct (bounded_end now tr w) as [Hb' HC']; [apply Hwt | done |].
  done.
Qed.

Lemma start_keeps_identity now tr w :
  NamedSharedTrace.session_ (NamedSharedTrace.start now tr w).1 =
    NamedSharedTrace.session_ tr /\
  NamedSharedTrace.trace_name_ (NamedSharedTrace.start now tr w).1 =
    NamedSharedTrace.trace_name_ tr /\
  sessions (NamedSharedTrace.start now tr w).2 = sessions w.
Proof. unfold NamedSharedTrace.start. by case_match. Qed.

Lemma end_keeps_identity now tr w :
  NamedSharedTrace.session_ (NamedSharedTrace.end_ now tr w).1 =
    NamedSharedTrace.session_ tr /\
  NamedSharedTrace.trace_name_ (NamedSharedTrace.end_ now tr w).1 =
    NamedSharedTrace.trace_name_ tr.
Proof. unfold NamedSharedTrace.end_. by case_match. Qed.

Lemma register_trace_at_queue w addr reference q name x y :
  session_queue w addr reference q ->
  session_queue (register_trace_at addr name x y w) addr reference
    (q ++ [event_of reference name (x, y)]).
Proof.
  intros (sess & Hlook & Href & Hq).
  exists (TraceSession.register_trace name x y sess).
  unfold register_trace_at. cbn [sessions].
  rewrite lookup_alter_eq, Hlook. split; [done |].
  rewrite register_trace_start_time, register_trace_queue, Hq.
  split; [done |]. unfold TraceSession.make_event, event_of. by rewrite Href.
Qed.

Lemma session_queue_same_sessions w w' addr reference q :
  sessions w' = sessions w ->
  session_queue w addr reference q -> session_queue w' addr reference q.
Proof. intros Heq (sess & Hlook & Hrest). exists sess. by rewrite Heq. Qed.

(** One call on the ring does what the same call does on the queue of the
    specification. *)
Lemma apply_refines op tr w q reference base :
  NamedSharedTrace.consistent tr ->
  NamedSharedTrace.pending tr = Fifo.unmatched q ->
  session_queue w (NamedSharedTrace.session_ tr) reference
    (base ++ (event_of reference (NamedSharedTrace.trace_name_ tr) <$> Fifo.matched q)) ->
  let st' := NamedSharedTrace.apply op (tr, w) in
  let q' := Fifo.apply (NamedSharedTrace.capacity tr) op q in
  NamedSharedTrace.consistent st'.1 /\
  NamedSharedTrace.capacity st'.1 = NamedSharedTrace.capacity tr /\
  NamedSharedTrace.session_ st'.1 = NamedSharedTrace.session_ tr /\
  NamedSharedTrace.trace_name_ st'.1 = NamedSharedTrace.trace_name_ tr /\
  NamedSharedTrace.pending st'.1 = Fifo.unmatched q' /\
  session_queue st'.2 (NamedSharedTrace.session_ tr) reference
    (base ++ (event_of reference (NamedSharedTrace.trace_name_ tr) <$> Fifo.matched q')).
Proof.
  intros Hcons Hpend Hsess.
  assert (NamedSharedTrace.elements_ tr = Z.of_nat (length (Fifo.unmatched q)))
    as Hlen.
  { rewrite <- Hpend, length_pending.
    destruct Hcons as (_ & Hb & _). unfold NamedSharedTrace.live_count_bounded in Hb.
    lia. }
  destruct op as [now | now]; cbn [NamedSharedTrace.apply Fifo.apply fst snd] in *.
  - (* start *)
    destruct (consistent_start now tr w Hcons) as [Hcons' Hcap].
    destruct (start_keeps_identity now tr w) as (Ha & Hn & Hw).
    split; [done |]. split; [done |]. split; [done |]. split; [done |].
    destruct (Z.ltb_spec (Z.of_nat (length (Fifo.unmatched q)))
                (NamedSharedTrace.capacity tr)) as [Hroom | Hfull].
    + cbn [Fifo.unmatched Fifo.matched]. split.
      * rewrite pending_start by (done || lia). by rewrite Hpend.
      * by eapply session_queue_same_sessions.
    + split.
      * rewrite start_full by lia. done.
      * by eapply session_queue_same_sessions.
  - (* end *)
    destruct (consistent_end now tr w Hcons) as [Hcons' Hcap].
    destruct (end_keeps_identity now tr w) as (Ha & Hn).
    split; [done |]. split; [done |]. split; [done |]. split; [done |].
    destruct (Fifo.unmatched q) as [|oldest rest] eqn:Hq.
    + cbn [length] in Hlen. rewrite end_empty by done.
      split; [by rewrite Hq |]. by eapply session_queue_same_sessions.
    + assert (NamedSharedTrace.elements_ tr <> 0) as Hne by (cbn [length] in Hlen; lia).
      pose proof (pending_end now tr w Hcons Hne) as Hhead.
      rewrite Hpend in Hhead. injection Hhead as Hold Hrest.
      cbn [Fifo.unmatched Fifo.matched]. split; [done |].
      rewrite end_accepted by done. cbn [snd].
      rewrite fmap_app, app_assoc. cbn [fmap list_fmap]. rewrite Hold.
      by apply register_trace_at_queue.
Qed.

Lemma run_refines ops tr w q reference base :
  NamedSharedTrace.consistent tr ->
  NamedSharedTrace.pending tr = Fifo.unmatched q ->
  session_queue w (NamedSharedTrace.session_ tr) reference
    (base ++ (event_of reference (NamedSharedTrace.trace_name_ tr) <$> Fifo.matched q)) ->
  let st' := NamedSharedTrace.run ops (tr, w) in
  let q' := Fifo.run (NamedSharedTrace.capacity tr) ops q in
  NamedSharedTrace.consistent st'.1 /\
  NamedSharedTrace.capacity st'.1 = NamedSharedTrace.capacity tr /\
  NamedSharedTrace.session_ st'.1 = NamedSharedTrace.session_ tr /\
  NamedSharedTrace.trace_name_ st'.1 = NamedSharedTrace.trace_name_ tr /\
  NamedSharedTrace.pending st'.1 = Fifo.unmatched q' /\
  session_queue st'.2 (NamedSharedTrace.session_ tr) reference
    (base ++ (event_of reference (NamedSharedTrace.trace_name_ tr) <$> Fifo.matched q')).
Proof.
  revert tr w q. induction ops as [|op ops IH]; intros tr w q Hcons Hpend Hsess.
  - cbn zeta. unfold NamedSharedTrace.run, Fifo.run. cbn [foldl fst snd].
    do 5 (split; [done |]). done.
  - cbn zeta. unfold NamedSharedTrace.run, Fifo.run. cbn [foldl].
    fold (NamedSharedTrace.run ops (NamedSharedTrace.apply op (tr, w))).
    fold (Fifo.run (NamedSharedTrace.capacity tr) ops
            (Fifo.apply (NamedSharedTrace.capacity tr) op q)).
    destruct (apply_refines op tr w q reference base Hcons Hpend Hsess)
      as (Hcons1 & Hcap1 & Ha1 & Hn1 & Hpend1 & Hsess1).
    destruct (NamedSharedTrace.apply op (tr, w)) as [tr1 w1] eqn:Hstep.
    cbn [fst snd] in *.
    rewrite <- Ha1, <- Hn1 in Hsess1.
    specialize (IH tr1 w1 _ Hcons1 Hpend1 Hsess1). cbn zeta in IH.
    rewrite Hcap1, Ha1, Hn1 in IH. exact IH.
Qed.

(** The invariants alone, whatever the store holds. *)
Lemma run_consistent ops tr w :
  NamedSharedTrace.consistent tr ->
  NamedSharedTrace.consistent (NamedSharedTrace.run ops (tr, w)).1 /\
  NamedSharedTrace.capacity (NamedSharedTrace.run ops (tr, w)).1 =
    NamedSharedTrace.capacity tr.
Proof.
  revert tr w. induction ops as [|op ops IH]; intros tr w Hcons; [done |].
  unfold NamedSharedTrace.run. cbn [foldl].
  fold (NamedSharedTrace.run ops (NamedSharedTrace.apply op (tr, w))).
  assert (NamedSharedTrace.consistent (NamedSharedTrace.apply op (tr, w)).1 /\
          NamedSharedTrace.capacity (NamedSharedTrace.apply op (tr, w)).1 =
            NamedSharedTrace.capacity tr) as [Hcons1 Hcap1].
  { destruct op as [now | now]; cbn [NamedSharedTrace.apply fst snd].
    - by apply consistent_start.
    - by apply consistent_end. }
  destruct (NamedSharedTrace.apply op (tr, w)) as [tr1 w1].
  cbn [fst] in *. destruct (IH tr1 w1 Hcons1) as [Hcons2 Hcap2].
  split; [done | congruence].
Qed.

(** ** The queue of the specification under bursts of calls *)

Lemma fifo_run_starts cap starts q :
  Fifo.run cap (NamedSharedTrace.Start <$> starts) q =
  {| Fifo.unmatched :=
       Fifo.unmatched q ++
       take (Z.to_nat cap - length (Fifo.unmatched q)) starts;
     Fifo.matched := Fifo.matched q |}.
Proof.
  revert q. induction starts as [|now starts IH]; intros [u m].
  - cbn. by rewrite take_nil, app_nil_r.
  - unfold Fifo.run. cbn [fmap list_fmap foldl].
    fold (NamedSharedTrace.Start <$> starts).
    fold (Fifo.run cap (NamedSharedTrace.Start <$> starts)
            (Fifo.apply cap (NamedSharedTrace.Start now) (Fifo.mk u m))).
    rewrite IH. cbn [Fifo.apply Fifo.unmatched Fifo.matched].
    destruct (Z.ltb_spec (Z.of_nat (length u)) cap) as [Hroom | Hfull];
      cbn [Fifo.unmatched Fifo.matched].
    + rewrite length_app. cbn [length].
      replace (Z.to_nat cap - length u)%nat
        with (S (Z.to_nat cap - (length u + 1)))%nat by lia.
      cbn [take]. by rewrite <- app_assoc.
    + replace (Z.to_nat cap - length u)%nat with 0%nat by lia. done.
Qed.

Lemma fifo_run_ends cap ends q :
  Fifo.run cap (NamedSharedTrace.End <$> ends) q =
  {| Fifo.unmatched := drop (length ends) (Fifo.unmatched q);
     Fifo.matched := Fifo.matched q ++ zip (Fifo.unmatched q) ends |}.
Proof.
  revert q. induction ends as [|now ends IH]; intros [u m].
  - cbn. destruct u; cbn; by rewrite app_nil_r.
  - unfold Fifo.run. cbn [fmap list_fmap foldl].
    fold (NamedSharedTrace.End <$> ends).
    fold (Fifo.run cap (NamedSharedTrace.End <$> ends)
            (Fifo.apply cap (NamedSharedTrace.End now) (Fifo.mk u m))).
    rewrite IH. cbn [Fifo.apply Fifo.unmatched Fifo.matched].
    destruct u as [|oldest rest]; cbn [Fifo.unmatched Fifo.matched].
    + by rewrite drop_nil.
    + cbn [length drop zip_with]. by rewrite <- app_assoc.
Qed.

(** ** The claims on the shared named trace and on the registry *)

(** C3: on a trace whose live-count equals its capacity, [start()] changes
    nothing and writes its warning.  On a trace with capacity C and nothing
    pending, C+5 calls of [start()] leave exactly C pending starts, the first
    C instants; C calls of [end()] after them submit exactly C events, pairing
    these instants in their order, and leave nothing pending. *)
Theorem start_rejected_when_full :
  (forall tr now w,
     NamedSharedTrace.elements_ tr = NamedSharedTrace.capacity tr ->
     NamedSharedTrace.start now tr w = (tr, warn NamedSharedTrace.full_warning w)) /\
  (forall tr w reference base starts ends,
     NamedSharedTrace.consistent tr ->
     NamedSharedTrace.elements_ tr = 0 ->
     session_queue w (NamedSharedTrace.session_ tr) reference base ->
     length starts = (Z.to_nat (NamedSharedTrace.capacity tr) + 5)%nat ->
     length ends = Z.to_nat (NamedSharedTrace.capacity tr) ->
     let st1 := NamedSharedTrace.run (NamedSharedTrace.Start <$> starts) (tr, w) in
     let st2 := NamedSharedTrace.run (NamedSharedTrace.End <$> ends) st1 in
     let accepted := take (Z.to_nat (NamedSharedTrace.capacity tr)) starts in
     NamedSharedTrace.elements_ st1.1 = NamedSharedTrace.capacity tr /\
     NamedSharedTrace.pending st1.1 = accepted /\
     NamedSharedTrace.elements_ st2.1 = 0 /\
     length (zip accepted ends) = Z.to_nat (NamedSharedTrace.capacity tr) /\
     session_queue st2.2 (NamedSharedTrace.session_ tr) reference
       (base ++ (event_of reference (NamedSharedTrace.trace_name_ tr)
                   <$> zip accepted ends))).
Proof.
  split.
  - intros tr now w Hfull. apply start_full. lia.
  - intros tr w reference base starts ends Hcons Hel Hsess Hstarts Hends.
    cbv zeta.
    assert (NamedSharedTrace.pending tr = Fifo.unmatched Fifo.empty) as Hpend.
    { unfold NamedSharedTrace.pending. by rewrite Hel. }
    assert (session_queue w (NamedSharedTrace.session_ tr) reference
              (base ++ (event_of reference (NamedSharedTrace.trace_name_ tr)
                          <$> Fifo.matched Fifo.empty))) as Hsess0.
    { cbn. by rewrite app_nil_r. }
    destruct (run_refines (NamedSharedTrace.Start <$> starts) tr w Fifo.empty
                reference base Hcons Hpend Hsess0)
      as (Hcons1 & Hcap1 & Ha1 & Hn1 & Hpend1 & Hsess1).
    destruct (NamedSharedTrace.run (NamedSharedTrace.Start <$> starts) (tr, w))
      as [tr1 w1].
    cbn [fst snd] in *.
    rewrite fifo_run_starts in Hpend1, Hsess1.
    cbn [Fifo.unmatched Fifo.matched Fifo.empty length app] in Hpend1, Hsess1.
    rewrite Nat.sub_0_r in Hpend1.
    set (C := NamedSharedTrace.capacity tr) in *.
    set (accepted := take (Z.to_nat C) starts) in *.
    assert (length accepted = Z.to_nat C) as Hacc.
    { subst accepted. rewrite length_take. lia. }
    assert (0 <= C) as HC by (subst C; unfold NamedSharedTrace.capacity, vector_size; lia).
    assert (NamedSharedTrace.elements_ tr1 = C) as Hel1.
    { pose proof (length_pending tr1) as Hlen. rewrite Hpend1, Hacc in Hlen.
      destruct Hcons1 as (_ & Hb & _). unfold NamedSharedTrace.live_count_bounded in Hb.
      lia. }
    rewrite <- Ha1, <- Hn1 in Hsess1.
    assert (NamedSharedTrace.pending tr1 =
            Fifo.unmatched {| Fifo.unmatched := accepted; Fifo.matched := [] |})
      as Hpend1' by done.
    destruct (run_refines (NamedSharedTrace.End <$> ends) tr1 w1
                {| Fifo.unmatched := accepted; Fifo.matched := [] |}
                reference base Hcons1 Hpend1' Hsess1)
      as (Hcons2 & Hcap2 & Ha2 & Hn2 & Hpend2 & Hsess2).
    destruct (NamedSharedTrace.run (NamedSharedTrace.End <$> ends) (tr1, w1))
      as [tr2 w2].
    cbn [fst snd] in *.
    rewrite fifo_run_ends in Hpend2, Hsess2.
    cbn [Fifo.unmatched Fifo.matched app] in Hpend2, Hsess2.
    rewrite drop_ge in Hpend2 by lia.
    assert (NamedSharedTrace.elements_ tr2 = 0) as Hel2.
    { pose proof (length_pending tr2) as Hlen. rewrite Hpend2 in Hlen.
      destruct Hcons2 as (_ & Hb & _). unfold NamedSharedTrace.live_count_bounded in Hb.
      cbn [length] in Hlen. lia. }
    split; [done |]. split; [done |]. split; [done |]. split.
    + rewrite length_zip_with. lia.
    + by rewrite Ha1, Hn1 in Hsess2.
Qed.

Lemma start_rejected_when_full_witness :
  let w := {| sessions := {[ 0%nat := TraceSession.create "test_over_capacity.log" 0 ]};
              cerr := [] |} in
  let tr :=
    (NamedSharedTrace.run (NamedSharedTrace.Start <$> (Z.of_nat <$> seq 0 100))
       (NamedSharedTrace.create 0 "overCapacityFunction", w)).1 in
  NamedSharedTrace.elements_ tr = 100 /\
  NamedSharedTrace.start 7 tr w = (tr, warn NamedSharedTrace.full_warning w).
Proof.
  cbv zeta. split; [vm_compute; reflexivity |].
  apply (proj1 start_rejected_when_full). vm_compute. reflexivity.
Defined.

(** C4: on a trace whose live-count is 0, [end()] changes nothing but
    [std::cerr]: the trace keeps its cursors and its live-count of 0, and no
    session receives an event. *)
Theorem end_without_start_ignored (tr : NamedSharedTrace.t) (now : Z) (w : World) :
  NamedSharedTrace.elements_ tr = 0 ->
  NamedSharedTrace.end_ now tr w = (tr, warn NamedSharedTrace.unmatched_warning w) /\
  sessions (NamedSharedTrace.end_ now tr w).2 = sessions w /\
  NamedSharedTrace.counter_push_ (NamedSharedTrace.end_ now tr w).1 =
    NamedSharedTrace.counter_push_ tr /\
  NamedSharedTrace.counter_pop_ (NamedSharedTrace.end_ now tr w).1 =
    NamedSharedTrace.counter_pop_ tr /\
  NamedSharedTrace.elements_ (NamedSharedTrace.end_ now tr w).1 = 0.
Proof. intros Hel. rewrite end_empty by done. by repeat split. Qed.

Lemma end_without_start_ignored_witness :
  let w := {| sessions := {[ 0%nat := TraceSession.create "test_named_trace.log" 0 ]};
              cerr := [] |} in
  let tr := NamedSharedTrace.create 0 "sharedFunction" in
  NamedSharedTrace.end_ 5 tr w = (tr, warn NamedSharedTrace.unmatched_warning w).
Proof.
  cbv zeta.
  exact (proj1 (end_without_start_ignored
                  (NamedSharedTrace.create 0 "sharedFunction") 5 _ eq_refl)).
Defined.

(** C5: matching is first in, first out.  Whatever [start()] and [end()]
    calls a trace has received since its construction, in whatever order and
    from whatever call site, its pending starts are those of the queue of the
    specification, the events it has submitted to its session are the pairs
    that queue has matched, and the next accepted [end()] reads at the head
    cursor the oldest unmatched start and submits it. *)
Theorem end_matches_oldest_start (session : nat) (name : string) (w : World)
    (reference : Z) (base : list TraceEvent) (ops : list NamedSharedTrace.Op) :
  session_queue w session reference base ->
  let st := NamedSharedTrace.run ops (NamedSharedTrace.create session name, w) in
  let q := Fifo.run TRACE_SIZE_INIT ops Fifo.empty in
  NamedSharedTrace.pending st.1 = Fifo.unmatched q /\
  session_queue st.2 session reference
    (base ++ (event_of reference name <$> Fifo.matched q)) /\
  (forall oldest rest now,
     Fifo.unmatched q = oldest :: rest ->
     vector_get (NamedSharedTrace.start_times_ st.1)
       (NamedSharedTrace.counter_pop_ st.1) = oldest /\
     NamedSharedTrace.pending (NamedSharedTrace.end_ now st.1 st.2).1 = rest /\
     session_queue (NamedSharedTrace.end_ now st.1 st.2).2 session reference
       (base ++ (event_of reference name <$> Fifo.matched q)
             ++ [event_of reference name (oldest, now)])).
Proof.
  intros Hsess. cbv zeta.
  destruct (consistent_create session name) as [Hcons Hcap].
  assert (session_queue w
            (NamedSharedTrace.session_ (NamedSharedTrace.create session name))
            reference
            (base ++ (event_of reference
                        (NamedSharedTrace.trace_name_ (NamedSharedTrace.create session name))
                        <$> Fifo.matched Fifo.empty))) as Hsess0.
  { cbn. by rewrite app_nil_r. }
  destruct (run_refines ops _ w Fifo.empty reference base Hcons eq_refl Hsess0)
    as (Hcons1 & Hcap1 & Ha1 & Hn1 & Hpend1 & Hsess1).
  rewrite Hcap in Hpend1, Hsess1.
  cbn [NamedSharedTrace.session_ NamedSharedTrace.trace_name_
       NamedSharedTrace.create] in Ha1, Hn1, Hsess1.
  set (q := Fifo.run TRACE_SIZE_INIT ops Fifo.empty) in *.
  destruct (NamedSharedTrace.run ops (NamedSharedTrace.create session name, w))
    as [tr1 w1].
  cbn [fst snd] in *.
  split; [done |]. split; [done |].
  intros oldest rest now Hq.
  assert (NamedSharedTrace.elements_ tr1 <> 0) as Hne.
  { pose proof (length_pending tr1) as Hlen. rewrite Hpend1, Hq in Hlen.
    cbn [length] in Hlen. lia. }
  pose proof (pending_end now tr1 w1 Hcons1 Hne) as Hhead.
  rewrite Hpend1, Hq in Hhead. injection Hhead as Hold Hrest.
  split; [done |]. split; [done |].
  rewrite end_accepted by done. cbn [snd].
  rewrite app_assoc, Ha1, Hn1, <- Hold.
  by apply register_trace_at_queue.
Qed.

Lemma end_matches_oldest_start_witness :
  let session := TraceSession.create "test_named_trace.log" 0 in
  let w := {| sessions := {[ 0%nat := session ]}; cerr := [] |} in
  let ops := [NamedSharedTrace.Start 10; NamedSharedTrace.Start 20;
              NamedSharedTrace.End 30; NamedSharedTrace.End 45] in
  session_queue
    (NamedSharedTrace.run ops (NamedSharedTrace.create 0 "sharedFunction", w)).2
    0 0
    [ {| trace_name := "sharedFunction"; start_time := 10; end_time := 30 |};
      {| trace_name := "sharedFunction"; start_time := 20; end_time := 45 |} ].
Proof.
  cbv zeta.
  refine (proj1 (proj2 (end_matches_oldest_start 0 "sharedFunction" _ 0 [] _ _))).
  exists (TraceSession.create "test_named_trace.log" 0).
  split; [vm_compute; reflexivity |]. split; reflexivity.
Defined.

(** C6: after the construction and after every [start()] or [end()] call the
    live-count lies between 0 and the capacity, and the capacity is
    [TRACE_SIZE_INIT], which is 100. *)
Theorem live_count_within_capacity (session : nat) (name : string) (w : World)
    (ops : list NamedSharedTrace.Op) :
  let tr := (NamedSharedTrace.run ops (NamedSharedTrace.create session name, w)).1 in
  0 <= NamedSharedTrace.elements_ tr <= NamedSharedTrace.capacity tr /\
  NamedSharedTrace.capacity tr = TRACE_SIZE_INIT /\
  TRACE_SIZE_INIT = 100.
Proof.
  cbv zeta. destruct (consistent_create session name) as [Hcons Hcap].
  destruct (run_consistent ops _ w Hcons) as [(_ & Hb & _) Hcap1].
  split; [exact Hb |]. split; [congruence | reflexivity].
Qed.

(** C9: for an identifier that the registry does not hold, [startTrace] and
    [endTrace] leave the registry and the world as they are: no trace is
    created or changed, no session receives an event, nothing is written to
    [std::cerr]. *)
Theorem unknown_identifier_ignored (id : string) (now : Z)
    (r : TraceRegistry.t) (w : World) :
  TraceRegistry.traces_ r !! id = None ->
  TraceRegistry.startTrace id now r w = (r, w) /\
  TraceRegistry.endTrace id now r w = (r, w).
Proof.
  intros Hid. unfold TraceRegistry.startTrace, TraceRegistry.endTrace.
  by rewrite Hid.
Qed.

Lemma unknown_identifier_ignored_witness :
  let w := {| sessions := {[ 0%nat := TraceSession.create "test_trace_registry.log" 0 ]};
              cerr := [] |} in
  let r := TraceRegistry.registerTrace "trace1" 0 TraceRegistry.instance in
  TraceRegistry.startTrace "trace2" 10 r w = (r, w) /\
  TraceRegistry.endTrace "trace2" 20 r w = (r, w).
Proof.
  cbv zeta. split.
  - refine (proj1 (unknown_identifier_ignored "trace2" 10 _ _ _)).
    vm_compute. reflexivity.
  - refine (proj2 (unknown_identifier_ignored "trace2" 20 _ _ _)).
    vm_compute. reflexivity.
Defined.

(** C10: the cursors are coherent after the construction, that is
    [counter_push_ = (counter_pop_ + elements_) mod capacity] with both
    cursors below the capacity; every [start()] and every [end()], accepted
    or rejected, keeps them so, hence they are so after any calls; and on a
    coherent trace an accepted [start()] appends its instant behind the
    pending ones while an accepted [end()] reads, at [counter_pop_], the
    oldest of them. *)
Theorem cursors_stay_coherent :
  (forall session name,
     NamedSharedTrace.cursors_coherent (NamedSharedTrace.create session name)) /\
  (forall tr now w,
     NamedSharedTrace.well_typed tr ->
     NamedSharedTrace.cursors_coherent tr ->
     (NamedSharedTrace.well_typed (NamedSharedTrace.start now tr w).1 /\
      NamedSharedTrace.cursors_coherent (NamedSharedTrace.start now tr w).1) /\
     (NamedSharedTrace.well_typed (NamedSharedTrace.end_ now tr w).1 /\
      NamedSharedTrace.cursors_coherent (NamedSharedTrace.end_ now tr w).1)) /\
  (forall session name w ops,
     NamedSharedTrace.cursors_coherent
       (NamedSharedTrace.run ops (NamedSharedTrace.create session name, w)).1) /\
  (forall tr now w,
     NamedSharedTrace.consistent tr ->
     (NamedSharedTrace.elements_ tr < NamedSharedTrace.capacity tr ->
      NamedSharedTrace.pending (NamedSharedTrace.start now tr w).1 =
        NamedSharedTrace.pending tr ++ [now]) /\
     (NamedSharedTrace.elements_ tr <> 0 ->
      NamedSharedTrace.pending tr =
        vector_get (NamedSharedTrace.start_times_ tr)
          (NamedSharedTrace.counter_pop_ tr)
        :: NamedSharedTrace.pending (NamedSharedTrace.end_ now tr w).1)).
Proof.
  split; [| split; [| split]].
  - intros session name. apply consistent_create.
  - intros tr now w Hwt Hco. split.
    + by apply coherent_start.
    + by apply coherent_end.
  - intros session name w ops.
    destruct (consistent_create session name) as [Hcons _].
    destruct (run_consistent ops _ w Hcons) as [(_ & _ & Hco) _]. exact Hco.
  - intros tr now w Hcons. split.
    + intros Hroom. by apply pending_start.
    + intros Hne. by apply pending_end.
Qed.

Lemma cursors_stay_coherent_witness :
  let w := {| sessions := {[ 0%nat := TraceSession.create "test_named_trace.log" 0 ]};
              cerr := [] |} in
  let tr := NamedSharedTrace.create 0 "sharedFunction" in
  NamedSharedTrace.cursors_coherent (NamedSharedTrace.start 10 tr w).1 /\
  NamedSharedTrace.cursors_coherent (NamedSharedTrace.end_ 30 tr w).1.
Proof.
  cbv zeta.
  destruct cursors_stay_coherent as (Hnew & Hstep & _).
  destruct (Hstep (NamedSharedTrace.create 0 "sharedFunction") 10
              {| sessions := {[ 0%nat := TraceSession.create "test_named_trace.log" 0 ]};
                 cerr := [] |}) as [[_ Hs] _].
  { repeat split; vm_compute; (reflexivity || discriminate). }
  { apply Hnew. }
  destruct (Hstep (NamedSharedTrace.create 0 "sharedFunction") 30
              {| sessions := {[ 0%nat := TraceSession.create "test_named_trace.log" 0 ]};
                 cerr := [] |}) as [_ [_ He]].
  { repeat split; vm_compute; (reflexivity || discriminate). }
  { apply Hnew. }
  split; [exact Hs | exact He].
Defined.

(** The registry test of the repository with two traces on one session, the
    clock readings made explicit: the file ends up with two lines. *)
Example registry_two_traces :
  let session := TraceSession.create "test_multiple_traces.log" 0 in
  let w0 := {| sessions := {[ 0%nat := session ]}; cerr := [] |} in
  let r0 :=
    TraceRegistry.registerTrace "trace2" 0
      (TraceRegistry.registerTrace "trace1" 0 TraceRegistry.instance) in
  let '(r1, w1) := TraceRegistry.startTrace "trace1" 10 r0 w0 in
  let '(r2, w2) := TraceRegistry.endTrace "trace1" 15 r1 w1 in
  let '(r3, w3) := TraceRegistry.startTrace "trace2" 20 r2 w2 in
  let '(r4, w4) := TraceRegistry.endTrace "trace2" 25 r3 w3 in
  let during := [TraceSession.Step []; TraceSession.Step [];
                 TraceSession.Step []; TraceSession.Step []] in
  (fun s => lines (contents (TraceSession.trace_file s)))
    <$> (sessions w4 !! 0%nat ≫= TraceSession.stop (fun _ => true) [] during) =
  Some ["trace1 10 15"; "trace2 20 25"].
Proof. vm_compute. reflexivity. Qed.
(** * Further properties of the code *)

(** ** TraceGuard: names and scopes *)

Lemma extract_trace_name_total s :
  TraceGuard.extract_trace_name s = Some (derived_name s).
Proof.
  unfold TraceGuard.extract_trace_name, derived_name.
  assert (match StdString.find "(" s with
          | Some pos => StdString.substr 0 (Some pos) s
          | None => Some s
          end = Some (before_first "(" s)) as ->.
  { destruct (StdString.find "(" s) as [pos|] eqn:Hf.
    - by rewrite substr_prefix, (find_before_first _ _ _ Hf).
    - apply find_none in Hf. by rewrite before_first_absent. }
  destruct (StdString.rfind " " (before_first "(" s)) as [pos|] eqn:Hr.
  - destruct (rfind_after_last _ _ _ Hr) as [Hlt Hdrop].
    rewrite substr_suffix by lia. by rewrite Nat.add_1_r, Hdrop.
  - apply rfind_none in Hr. by rewrite after_last_absent.
Qed.

Lemma before_first_append c (a b : string) :
  has_char c a = false -> before_first c (a +:+ String c b) = a.
Proof.
  induction a as [|d a IH]; intros Ha.
  - rewrite append_empty_l. cbn [before_first]. by rewrite Ascii.eqb_refl.
  - cbn [has_char] in Ha. apply orb_false_elim in Ha as [Hd Ha].
    rewrite append_cons. cbn [before_first]. by rewrite Hd, IH.
Qed.

Lemma after_last_append c (a b : string) :
  has_char c b = false -> after_last c (a +:+ String c b) = b.
Proof.
  intros Hb. induction a as [|d a IH].
  - rewrite append_empty_l. cbn [after_last]. by rewrite Hb, Ascii.eqb_refl.
  - rewrite append_cons. cbn [after_last].
    rewrite has_char_append. cbn [has_char].
    by rewrite Ascii.eqb_refl, orb_true_r.
Qed.

(** [extract_trace_name] takes the function name out of a signature: with a
    return type in front and a parameter list behind, or with the parameter
    list alone, provided the name itself holds no space and no ['('] and the
    return type no ['(']. *)
Theorem extract_strips_return_type_and_parameters (ret name args : string) :
  has_char "(" ret = false ->
  has_char "(" name = false ->
  has_char " " name = false ->
  TraceGuard.extract_trace_name (ret +:+ " " +:+ name +:+ "(" +:+ args) = Some name /\
  TraceGuard.extract_trace_name (name +:+ "(" +:+ args) = Some name.
Proof.
  intros Hret Hname Hspace. rewrite !extract_trace_name_total.
  unfold derived_name. split; f_equal.
  - change (" " +:+ name +:+ "(" +:+ args) with (String " " (name +:+ String "(" args)).
    replace (ret +:+ String " " (name +:+ String "(" args))
      with ((ret +:+ String " " name) +:+ String "(" args)
      by (by rewrite append_assoc, append_cons).
    rewrite before_first_append.
    + by apply after_last_append.
    + rewrite has_char_append. cbn [has_char]. by rewrite Hret, Hname.
  - change ("(" +:+ args) with (String "(" args).
    rewrite before_first_append by done. by apply after_last_absent.
Qed.

Lemma extract_strips_return_type_and_parameters_witness :
  TraceGuard.extract_trace_name "void ProducerNode::timer_callback()" =
    Some "ProducerNode::timer_callback" /\
  TraceGuard.extract_trace_name "function_1(std::string args)" = Some "function_1".
Proof.
  split.
  - refine (proj1 (extract_strips_return_type_and_parameters
                     "void" "ProducerNode::timer_callback" ")" _ _ _)); reflexivity.
  - refine (proj2 (extract_strips_return_type_and_parameters
                     "" "function_1" "std::string args)" _ _ _)); reflexivity.
Defined.

(** A derived name is a fixed point: extracting from it gives it back. *)
Theorem extract_trace_name_idempotent (s name : string) :
  TraceGuard.extract_trace_name s = Some name ->
  TraceGuard.extract_trace_name name = Some name.
Proof.
  rewrite !extract_trace_name_total. intros [= <-]. f_equal.
  unfold derived_name at 1.
  rewrite before_first_absent.
  - apply after_last_absent. unfold derived_name. apply has_char_after_last.
  - unfold derived_name. apply has_char_after_last_other, has_char_before_first.
Qed.

Lemma extract_trace_name_idempotent_witness :
  TraceGuard.extract_trace_name "Node::callback" = Some "Node::callback".
Proof.
  exact (extract_trace_name_idempotent "void Node::callback(int)" "Node::callback"
           eq_refl).
Defined.

Lemma register_trace_at_frame addr name x y w other :
  other <> addr ->
  sessions (register_trace_at addr name x y w) !! other = sessions w !! other.
Proof.
  intros Hne. unfold register_trace_at. cbn [sessions].
  by rewrite lookup_alter_ne.
Qed.

(** A scope under a guard: the constructor never throws and keeps the clock
    reading that [get_start_time] returns; the destructor appends to the queue
    of the guard's session exactly one event, with the derived name and the
    two instants taken relative to the session's creation; no other session
    and nothing on [std::cerr] changes. *)
Theorem guard_submits_on_destruction (session : nat) (signature : string)
    (t_start t_end : Z) (w : World) (reference : Z) (q : list TraceEvent) :
  session_queue w session reference q ->
  exists g,
    TraceGuardObject.create session signature t_start = Some g /\
    TraceGuardObject.get_start_time g = t_start /\
    session_queue (TraceGuardObject.destroy t_end g w) session reference
      (q ++ [event_of reference (derived_name signature) (t_start, t_end)]) /\
    cerr (TraceGuardObject.destroy t_end g w) = cerr w /\
    (forall other, other <> session ->
       sessions (TraceGuardObject.destroy t_end g w) !! other = sessions w !! other).
Proof.
  intros Hq. unfold TraceGuardObject.create.
  rewrite extract_trace_name_total. eexists. split; [reflexivity |].
  split; [reflexivity |]. unfold TraceGuardObject.destroy.
  cbn [TraceGuardObject.session_ TraceGuardObject.trace_name_
       TraceGuardObject.start_time_].
  split; [by apply register_trace_at_queue |]. split; [done |].
  intros other Hne. by apply register_trace_at_frame.
Qed.

Lemma guard_submits_on_destruction_witness :
  let w := {| sessions := {[ 0%nat := TraceSession.create "test_guard_times.log" 100 ]};
              cerr := [] |} in
  exists g,
    TraceGuardObject.create 0 "void testFunction()" 150 = Some g /\
    session_queue (TraceGuardObject.destroy 175 g w) 0 100
      [ {| trace_name := "testFunction"; start_time := 50; end_time := 75 |} ].
Proof.
  cbv zeta.
  destruct (guard_submits_on_destruction 0 "void testFunction()" 150 175
              {| sessions := {[ 0%nat := TraceSession.create "test_guard_times.log" 100 ]};
                 cerr := [] |} 100 [])
    as (g & Hg & _ & Hq & _).
  - exists (TraceSession.create "test_guard_times.log" 100).
    split; [vm_compute; reflexivity |]. split; reflexivity.
  - exists g. split; [exact Hg | exact Hq].
Defined.

(** Nested scopes on one session: the guard of the inner scope is destroyed
    first, so its event stands in the queue before the event of the outer
    scope, which started earlier. *)
Theorem nested_guards_exit_order (session : nat) (outer inner : string)
    (t1 t2 t3 t4 : Z) (w : World) (reference : Z) (q : list TraceEvent) :
  session_queue w session reference q ->
  exists g_outer g_inner,
    TraceGuardObject.create session outer t1 = Some g_outer /\
    TraceGuardObject.create session inner t2 = Some g_inner /\
    session_queue
      (TraceGuardObject.destroy t4 g_outer (TraceGuardObject.destroy t3 g_inner w))
      session reference
      (q ++ [event_of reference (derived_name inner) (t2, t3);
             event_of reference (derived_name outer) (t1, t4)]).
Proof.
  intros Hq. unfold TraceGuardObject.create.
  rewrite !extract_trace_name_total. eexists. eexists.
  split; [reflexivity |]. split; [reflexivity |].
  unfold TraceGuardObject.destroy.
  cbn [TraceGuardObject.session_ TraceGuardObject.trace_name_
       TraceGuardObject.start_time_].
  change [event_of reference (derived_name inner) (t2, t3);
          event_of reference (derived_name outer) (t1, t4)]
    with ([event_of reference (derived_name inner) (t2, t3)] ++
          [event_of reference (derived_name outer) (t1, t4)]).
  rewrite app_assoc. by do 2 apply register_trace_at_queue.
Qed.

Lemma nested_guards_exit_order_witness :
  let w := {| sessions := {[ 0%nat := TraceSession.create "trace.log" 0 ]};
              cerr := [] |} in
  exists g_outer g_inner,
    TraceGuardObject.create 0 "void outer()" 10 = Some g_outer /\
    TraceGuardObject.create 0 "void inner()" 20 = Some g_inner /\
    session_queue
      (TraceGuardObject.destroy 40 g_outer (TraceGuardObject.destroy 30 g_inner w))
      0 0
      [ {| trace_name := "inner"; start_time := 20; end_time := 30 |};
        {| trace_name := "outer"; start_time := 10; end_time := 40 |} ].
Proof.
  cbv zeta.
  destruct (nested_guards_exit_order 0 "void outer()" "void inner()" 10 20 30 40
              {| sessions := {[ 0%nat := TraceSession.create "trace.log" 0 ]};
                 cerr := [] |} 0 [])
    as (g1 & g2 & H1 & H2 & Hq).
  - exists (TraceSession.create "trace.log" 0).
    split; [vm_compute; reflexivity |]. split; reflexivity.
  - exists g1, g2. split; [exact H1 |]. split; [exact H2 | exact Hq].
Defined.

(** ** The format of the log *)

Lemma pretty_N_char_not_space x : Ascii.eqb (pretty_N_char x) " " = false.
Proof. unfold pretty_N_char. by repeat case_match. Qed.

Lemma pretty_N_go_space x s :
  has_char " " (pretty_N_go x s) = has_char " " s.
Proof.
  revert s. induction (N.lt_wf_0 x) as [x _ IH]; intros s.
  destruct (decide (x = 0)%N) as [->|Hx].
  - by rewrite pretty_N_go_0.
  - rewrite pretty_N_go_step by lia.
    rewrite IH by (apply N.div_lt; lia).
    cbn [has_char]. by rewrite pretty_N_char_not_space.
Qed.

Lemma pretty_Z_space (x : Z) : has_char " " (pretty x) = false.
Proof.
  assert (forall p : positive, has_char " " (pretty p) = false) as Hpos.
  { intros p. change (pretty p) with (pretty (N.pos p)).
    unfold pretty, pretty_N. case_decide; [done |].
    by rewrite pretty_N_go_space. }
  destruct x as [|p|p].
  - done.
  - exact (Hpos p).
  - change (pretty (Z.neg p)) with ("-" +:+ pretty p).
    rewrite has_char_append. by rewrite Hpos.
Qed.

(** A text is cut at its last [c] in one way only. *)
Lemma append_last_char_inj c (a a' r r' : string) :
  has_char c r = false -> has_char c r' = false ->
  a +:+ String c r = a' +:+ String c r' -> a = a' /\ r = r'.
Proof.
  intros Hr Hr'. revert a'. induction a as [|d a IH]; intros [|d' a'] Heq.
  - rewrite !append_empty_l in Heq. by injection Heq as ->.
  - rewrite append_empty_l, append_cons in Heq. injection Heq as _ ->.
    rewrite has_char_append in Hr. cbn [has_char] in Hr.
    rewrite Ascii.eqb_refl, orb_true_r in Hr. done.
  - rewrite append_empty_l, append_cons in Heq. injection Heq as _ <-.
    rewrite has_char_append in Hr'. cbn [has_char] in Hr'.
    rewrite Ascii.eqb_refl, orb_true_r in Hr'. done.
  - rewrite !append_cons in Heq. injection Heq as -> Heq.
    destruct (IH _ Heq) as [-> ->]. done.
Qed.

(** The last two spaces of a line delimit its two offsets. *)
Lemma event_line_fields (e1 e2 : TraceEvent) :
  event_line e1 = event_line e2 ->
  trace_name e1 = trace_name e2 /\
  pretty (start_time e1) = pretty (start_time e2) /\
  pretty (end_time e1) = pretty (end_time e2).
Proof.
  unfold event_line. intros Heq.
  assert (forall n s t : string,
            n +:+ " " +:+ s +:+ " " +:+ t = (n +:+ String " " s) +:+ String " " t)
    as Hshape by (intros; by rewrite append_assoc).
  rewrite !Hshape in Heq.
  apply append_last_char_inj in Heq as [Heq Ht]; [| apply pretty_Z_space ..].
  apply append_last_char_inj in Heq as [Hn Hs]; [| apply pretty_Z_space ..].
  done.
Qed.

(** The line written for an event determines the event, whatever its name
    holds: two events with the same line have the same name and the same
    offsets. *)
Theorem event_line_injective (e1 e2 : TraceEvent) :
  event_line e1 = event_line e2 -> e1 = e2.
Proof.
  intros Heq. destruct (event_line_fields _ _ Heq) as (Hn & Hs & Ht).
  apply (inj pretty) in Hs. apply (inj pretty) in Ht.
  destruct e1 as [n1 s1 t1], e2 as [n2 s2 t2].
  cbn [trace_name start_time end_time] in *. by subst.
Qed.

Lemma event_line_injective_witness :
  {| trace_name := "f"; start_time := 0; end_time := 50 |} =
  {| trace_name := "f"; start_time := 0; end_time := 50 |}.
Proof.
  exact (event_line_injective
           {| trace_name := "f"; start_time := 0; end_time := 50 |}
           {| trace_name := "f"; start_time := 0; end_time := 50 |} eq_refl).
Defined.

(** The file determines the events: when no name holds a line feed, two lists
    of events with the same text are the same list. *)
Theorem render_injective (es1 es2 : list TraceEvent) :
  Forall (fun e => has_char newline (trace_name e) = false) es1 ->
  Forall (fun e => has_char newline (trace_name e) = false) es2 ->
  render es1 = render es2 -> es1 = es2.
Proof.
  intros H1 H2 Heq.
  assert (event_line <$> es1 = event_line <$> es2) as Hlines
    by (by rewrite <- !lines_render, Heq).
  clear Heq H1 H2. revert es2 Hlines.
  induction es1 as [|e1 es1 IH]; intros [|e2 es2] Hlines; try done.
  cbn [fmap list_fmap] in Hlines. injection Hlines as He Hrest.
  f_equal; [| by apply IH].
  destruct (event_line_fields _ _ He) as (Hn & Hs & Ht).
  apply (inj pretty) in Hs. apply (inj pretty) in Ht.
  destruct e1 as [n1 s1 t1], e2 as [n2 s2 t2].
  cbn [trace_name start_time end_time] in *. by subst.
Qed.

Lemma render_injective_witness :
  [ {| trace_name := "f"; start_time := 0; end_time := 50 |} ] =
  [ {| trace_name := "f"; start_time := 0; end_time := 50 |} ].
Proof.
  apply render_injective; [by repeat constructor .. | reflexivity].
Defined.

(** ** TraceSession: the writer while the session is live *)

(** While nobody has called [stop], whatever the producers and the consumer
    have done, spurious wake-ups included: the consumer has not left its
    loop; its stream, once made, is open exactly if the destination could be
    opened; every event submitted so far has been taken by the consumer or is
    queued, once and in the order of submission, the taken ones being the
    first ones; the text of the taken events is what the file and the buffer
    of an open stream hold together, and it is dropped when the destination
    could not be opened. *)
Theorem live_session_keeps_every_event (can_open : string -> bool)
    (filename : string) (now : Z) (sched : list TraceSession.Action) :
  forallb TraceSession.is_live sched = true ->
  exists s taken,
    TraceSession.run can_open sched (TraceSession.create filename now) = Some s /\
    TraceSession.running s = true /\
    TraceSession.consumer_pc s <> TraceSession.Finished /\
    TraceSession.submitted now sched = taken ++ TraceSession.trace_queue s /\
    (TraceSession.consumer_pc s = TraceSession.AtEntry -> taken = []) /\
    (TraceSession.consumer_pc s <> TraceSession.AtEntry ->
     is_open (TraceSession.trace_file s) = can_open filename /\
     contents (TraceSession.trace_file s) +:+ buffer (TraceSession.trace_file s) =
       if can_open filename then render taken else EmptyString).
Proof.
  intros Hsched.
  destruct (live_writer_reached can_open filename now sched Hsched)
    as (s & Hrun & Hfn & Hr & _ & _ & Hpc & _ & taken & Hes & Hstream).
  exists s, taken. do 4 (split; [done |]).
  rewrite Hfn in Hstream.
  destruct (TraceSession.consumer_pc s); split; try done; try (by intros _).
  by intros _; destruct Hstream.
Qed.

Lemma live_session_keeps_every_event_witness :
  let sched :=
    [TraceSession.Submit "a" 0 50;
     TraceSession.Consumer (TraceSession.Step []);
     TraceSession.Consumer (TraceSession.Step []);
     TraceSession.Consumer (TraceSession.Step [3%nat]);
     TraceSession.Consumer TraceSession.Spurious;
     TraceSession.Submit "b" 10 40] in
  exists s taken,
    TraceSession.run (fun _ => true) sched (TraceSession.create "trace.log" 0)
      = Some s /\
    TraceSession.submitted 0 sched = taken ++ TraceSession.trace_queue s /\
    (TraceSession.consumer_pc s <> TraceSession.AtEntry ->
     contents (TraceSession.trace_file s) +:+ buffer (TraceSession.trace_file s) =
       render taken).
Proof.
  cbv zeta.
  destruct (live_session_keeps_every_event (fun _ => true) "trace.log" 0
              [TraceSession.Submit "a" 0 50;
               TraceSession.Consumer (TraceSession.Step []);
               TraceSession.Consumer (TraceSession.Step []);
               TraceSession.Consumer (TraceSession.Step [3%nat]);
               TraceSession.Consumer TraceSession.Spurious;
               TraceSession.Submit "b" 10 40] eq_refl)
    as (s & taken & Hrun & _ & _ & Hes & _ & Htext).
  exists s, taken. split; [exact Hrun |]. split; [exact Hes |].
  intros Hpc. exact (proj2 (Htext Hpc)).
Defined.

Lemma live_writer_drained can_open reference es f1 f2 f3 s s' :
  TraceSession.live_writer can_open reference es s ->
  TraceSession.run can_open
    [TraceSession.Consumer (TraceSession.Step f1);
     TraceSession.Consumer (TraceSession.Step f2);
     TraceSession.Consumer (TraceSession.Step f3)] s = Some s' ->
  TraceSession.trace_queue s' = [] /\
  TraceSession.consumer_pc s' <> TraceSession.AtEntry.
Proof.
  intros (Hr & _ & _ & Hpc & Hasleep & _) Hrun.
  destruct s as [q r fn ref pc j f].
  cbn [TraceSession.running TraceSession.consumer_pc TraceSession.trace_queue] in *.
  subst r.
  destruct pc; try done.
  - destruct q as [|e q]; cbn in Hrun; by injection Hrun as <-.
  - destruct q as [|e q]; cbn in Hrun; by injection Hrun as <-.
  - destruct q as [|e q]; cbn in Hrun; by injection Hrun as <-.
  - rewrite (Hasleep (or_introl eq_refl)) in Hrun.
    cbn in Hrun. by injection Hrun as <-.
  - rewrite (Hasleep (or_intror eq_refl)) in Hrun.
    cbn in Hrun. by injection Hrun as <-.
Qed.

(** No wake-up of a producer is lost: while nobody has called [stop], three
    steps of the consumer, wherever it stands, empty the queue; the stream of
    a destination that could be opened then holds, in the file and in its
    buffer, every event submitted so far, and the stream of one that could
    not holds nothing. *)
Theorem consumer_drains_within_three_steps (can_open : string -> bool)
    (filename : string) (now : Z) (sched : list TraceSession.Action)
    (f1 f2 f3 : list nat) :
  forallb TraceSession.is_live sched = true ->
  exists s s',
    TraceSession.run can_open sched (TraceSession.create filename now) = Some s /\
    TraceSession.run can_open
      [TraceSession.Consumer (TraceSession.Step f1);
       TraceSession.Consumer (TraceSession.Step f2);
       TraceSession.Consumer (TraceSession.Step f3)] s = Some s' /\
    TraceSession.trace_queue s' = [] /\
    is_open (TraceSession.trace_file s') = can_open filename /\
    contents (TraceSession.trace_file s') +:+ buffer (TraceSession.trace_file s') =
      if can_open filename
      then render (TraceSession.submitted now sched) else EmptyString.
Proof.
  intros Hsched.
  destruct (live_writer_reached can_open filename now sched Hsched)
    as (s & Hrun & Hfn & Hlive).
  destruct (live_writer_run can_open now _
              [TraceSession.Consumer (TraceSession.Step f1);
               TraceSession.Consumer (TraceSession.Step f2);
               TraceSession.Consumer (TraceSession.Step f3)] s eq_refl Hlive)
    as (s' & Hrun' & Hlive').
  destruct (live_writer_drained _ _ _ _ _ _ _ _ Hlive Hrun') as [Hq Hpc].
  exists s, s'. do 3 (split; [done |]).
  destruct Hlive' as (_ & _ & _ & _ & _ & taken & Hes & Hstream).
  cbn [TraceSession.submitted] in Hes. rewrite Hq, !app_nil_r in Hes. subst taken.
  rewrite (run_filename _ _ _ _ Hrun'), Hfn in Hstream.
  destruct (TraceSession.consumer_pc s'); try done; by destruct Hstream.
Qed.

Lemma consumer_drains_within_three_steps_witness :
  exists s',
    TraceSession.run (fun _ => true)
      ([TraceSession.Consumer (TraceSession.Step []);
        TraceSession.Consumer (TraceSession.Step []);
        TraceSession.Consumer (TraceSession.Step []);
        TraceSession.Consumer (TraceSession.Step []);
        TraceSession.Submit "late" 5 9] ++
       [TraceSession.Consumer (TraceSession.Step []);
        TraceSession.Consumer (TraceSession.Step [4%nat]);
        TraceSession.Consumer (TraceSession.Step [])])
      (TraceSession.create "trace.log" 0) = Some s' /\
    TraceSession.trace_queue s' = [] /\
    lines (contents (TraceSession.trace_file s') +:+
           buffer (TraceSession.trace_file s')) = ["late 5 9"].
Proof.
  destruct (consumer_drains_within_three_steps (fun _ => true) "trace.log" 0
              [TraceSession.Consumer (TraceSession.Step []);
               TraceSession.Consumer (TraceSession.Step []);
               TraceSession.Consumer (TraceSession.Step []);
               TraceSession.Consumer (TraceSession.Step []);
               TraceSession.Submit "late" 5 9] [] [4%nat] [] eq_refl)
    as (s & s' & Hrun & Hrun' & Hq & _ & Hc).
  exists s'. split; [| split].
  - rewrite run_app, Hrun. exact Hrun'.
  - exact Hq.
  - rewrite Hc. reflexivity.
Defined.

(** ** TraceSession: the wake-up of [stop] *)



Lemma finished_exec can_open a s s' :
  TraceSession.consumer_pc s = TraceSession.Finished ->
  TraceSession.exec can_open a s = Some s' ->
  TraceSession.consumer_pc s' = TraceSession.Finished /\
  TraceSession.trace_file s' = TraceSession.trace_file s /\
  TraceSession.session_start_time_ s' = TraceSession.session_start_time_ s /\
  TraceSession.trace_queue s' =
    TraceSession.trace_queue s ++
    TraceSession.submitted (TraceSession.session_start_time_ s) [a].
Proof.
  destruct s as [q r fn ref pc j f]. cbn. intros ->.
  destruct a as [name t0 t1 | [flushes |] | | |]; cbn.
  - intros [= <-]. by cbn.
  - intros [= <-]. cbn. by rewrite app_nil_r.
  - intros [= <-]. cbn. by rewrite app_nil_r.
  - destruct r; intros [= <-]; cbn; by rewrite app_nil_r.
  - intros [= <-]. cbn. by rewrite app_nil_r.
  - destruct (negb r && j); [| done]. intros [= <-]. cbn. by rewrite app_nil_r.
Qed.

(** Once the consumer has finished, nothing is written any more: whatever
    the threads go on doing, the file stays as it is; an event submitted from
    then on is put on the queue and stays there. *)
Theorem finished_consumer_writes_nothing (can_open : string -> bool)
    (sched : list TraceSession.Action) (s s' : TraceSession.t) :
  TraceSession.consumer_pc s = TraceSession.Finished ->
  TraceSession.run can_open sched s = Some s' ->
  TraceSession.trace_file s' = TraceSession.trace_file s /\
  TraceSession.consumer_pc s' = TraceSession.Finished /\
  TraceSession.trace_queue s' =
    TraceSession.trace_queue s ++
    TraceSession.submitted (TraceSession.session_start_time_ s) sched.
Proof.
  revert s. induction sched as [|a sched IH]; intros s Hpc Hrun.
  - injection Hrun as <-. cbn. by rewrite app_nil_r.
  - cbn [TraceSession.run] in Hrun.
    destruct (TraceSession.exec can_open a s) as [s1|] eqn:Hexec; [| done].
    destruct (finished_exec _ _ _ _ Hpc Hexec) as (Hpc1 & Hf1 & Href1 & Hq1).
    destruct (IH _ Hpc1 Hrun) as (Hf & Hpc' & Hq).
    split; [congruence |]. split; [done |].
    rewrite Hq, Hq1, Href1. change (a :: sched) with ([a] ++ sched).
    by rewrite submitted_app, app_assoc.
Qed.

Lemma finished_consumer_writes_nothing_witness :
  exists s s',
    TraceSession.stop (fun _ => true) []
      [TraceSession.Step []; TraceSession.Step [];
       TraceSession.Step []; TraceSession.Step []]
      (TraceSession.create "trace.log" 0) = Some s /\
    TraceSession.run (fun _ => true)
      [TraceSession.Submit "lost" 1 2;
       TraceSession.Consumer (TraceSession.Step []);
       TraceSession.Consumer TraceSession.Spurious;
       TraceSession.Consumer (TraceSession.Step [])] s = Some s' /\
    contents (TraceSession.trace_file s') = "" /\
    length (TraceSession.trace_queue s') = 1%nat.
Proof.
  exists (TraceSession.mk [] false "trace.log" 0 TraceSession.Finished false
            {| is_open := false; buffer := ""; contents := "" |}).
  destruct (TraceSession.run (fun _ => true)
              [TraceSession.Submit "lost" 1 2;
               TraceSession.Consumer (TraceSession.Step []);
               TraceSession.Consumer TraceSession.Spurious;
               TraceSession.Consumer (TraceSession.Step [])]
              (TraceSession.mk [] false "trace.log" 0 TraceSession.Finished false
                 {| is_open := false; buffer := ""; contents := "" |}))
    as [s'|] eqn:Hrun; [| vm_compute in Hrun; discriminate Hrun].
  exists s'. split; [reflexivity |]. split; [reflexivity |].
  pose proof (fun Hpc => finished_consumer_writes_nothing _ _ _ _ Hpc Hrun) as Hthm.
  destruct (Hthm eq_refl) as (Hf & _ & Hq).
  split; [by rewrite Hf | by rewrite Hq].
Defined.

(** ** NamedSharedTrace: what a trace leaves alone, and what it counts *)

Lemma apply_frame op tr w :
  NamedSharedTrace.session_ (NamedSharedTrace.apply op (tr, w)).1 =
    NamedSharedTrace.session_ tr /\
  NamedSharedTrace.trace_name_ (NamedSharedTrace.apply op (tr, w)).1 =
    NamedSharedTrace.trace_name_ tr /\
  length (NamedSharedTrace.start_times_ (NamedSharedTrace.apply op (tr, w)).1) =
    length (NamedSharedTrace.start_times_ tr) /\
  (forall other, other <> NamedSharedTrace.session_ tr ->
     sessions (NamedSharedTrace.apply op (tr, w)).2 !! other = sessions w !! other).
Proof.
  destruct op as [now | now]; cbn [NamedSharedTrace.apply fst snd].
  - unfold NamedSharedTrace.start. case_match; cbn; [done |].
    unfold vector_set. by rewrite length_insert.
  - unfold NamedSharedTrace.end_. case_match; cbn; [done |].
    do 3 (split; [done |]). intros other Hne. by rewrite lookup_alter_ne.
Qed.

(** Calls on a trace never rebind it, never resize its buffer and never touch
    a session other than its own. *)
Theorem shared_trace_touches_only_its_session (ops : list NamedSharedTrace.Op)
    (tr : NamedSharedTrace.t) (w : World) :
  let st := NamedSharedTrace.run ops (tr, w) in
  NamedSharedTrace.session_ st.1 = NamedSharedTrace.session_ tr /\
  NamedSharedTrace.trace_name_ st.1 = NamedSharedTrace.trace_name_ tr /\
  NamedSharedTrace.capacity st.1 = NamedSharedTrace.capacity tr /\
  (forall other, other <> NamedSharedTrace.session_ tr ->
     sessions st.2 !! other = sessions w !! other).
Proof.
  cbv zeta. revert tr w. induction ops as [|op ops IH]; intros tr w; [done |].
  unfold NamedSharedTrace.run. cbn [foldl].
  fold (NamedSharedTrace.run ops (NamedSharedTrace.apply op (tr, w))).
  destruct (apply_frame op tr w) as (Ha & Hn & Hlen & Hother).
  destruct (NamedSharedTrace.apply op (tr, w)) as [tr1 w1]. cbn [fst snd] in *.
  destruct (IH tr1 w1) as (Ha' & Hn' & Hcap' & Hother').
  split; [congruence |]. split; [congruence |]. split.
  - rewrite Hcap'. unfold NamedSharedTrace.capacity, vector_size. by rewrite Hlen.
  - intros other Hne. rewrite Hother' by congruence. by apply Hother.
Qed.

Lemma apply_tracks op tr w q :
  NamedSharedTrace.consistent tr ->
  NamedSharedTrace.pending tr = Fifo.unmatched q ->
  NamedSharedTrace.counter_pop_ tr =
    Z.of_nat (length (Fifo.matched q)) mod NamedSharedTrace.capacity tr ->
  let st' := NamedSharedTrace.apply op (tr, w) in
  let q' := Fifo.apply (NamedSharedTrace.capacity tr) op q in
  NamedSharedTrace.consistent st'.1 /\
  NamedSharedTrace.capacity st'.1 = NamedSharedTrace.capacity tr /\
  NamedSharedTrace.pending st'.1 = Fifo.unmatched q' /\
  NamedSharedTrace.counter_pop_ st'.1 =
    Z.of_nat (length (Fifo.matched q')) mod NamedSharedTrace.capacity tr /\
  cerr st'.2 = cerr w ++ fifo_warnings (NamedSharedTrace.capacity tr) [op] q.
Proof.
  intros Hcons Hpend Hpop.
  assert (NamedSharedTrace.elements_ tr = Z.of_nat (length (Fifo.unmatched q)))
    as Hlen.
  { rewrite <- Hpend, length_pending.
    destruct Hcons as (_ & Hb & _). unfold NamedSharedTrace.live_count_bounded in Hb.
    lia. }
  destruct op as [now | now];
    cbn [NamedSharedTrace.apply Fifo.apply fifo_warnings fst snd] in *;
    rewrite app_nil_r.
  - (* start *)
    destruct (consistent_start now tr w Hcons) as [Hcons' Hcap].
    split; [done |]. split; [done |].
    destruct (Z.ltb_spec (Z.of_nat (length (Fifo.unmatched q)))
                (NamedSharedTrace.capacity tr)) as [Hroom | Hfull].
    + cbn [Fifo.unmatched Fifo.matched].
      split; [rewrite pending_start by (done || lia); by rewrite Hpend |].
      rewrite start_accepted by lia. cbn [fst snd NamedSharedTrace.counter_pop_].
      split; [done | by rewrite app_nil_r].
    + rewrite start_full by lia. cbn [fst snd]. done.
  - (* end *)
    destruct (consistent_end now tr w Hcons) as [Hcons' Hcap].
    split; [done |]. split; [done |].
    destruct (Fifo.unmatched q) as [|oldest rest] eqn:Hq.
    + cbn [length] in Hlen. rewrite end_empty by done. cbn [fst snd].
      by rewrite Hq.
    + assert (NamedSharedTrace.elements_ tr <> 0) as Hne by (cbn [length] in Hlen; lia).
      pose proof (pending_end now tr w Hcons Hne) as Hhead.
      rewrite Hpend in Hhead. injection Hhead as Hold Hrest.
      cbn [Fifo.unmatched Fifo.matched]. split; [done |].
      rewrite end_accepted by done.
      cbn [fst snd NamedSharedTrace.counter_pop_ register_trace_at cerr].
      split; [| by rewrite app_nil_r].
      destruct Hcons as ((_ & Hpoprange & _ & HC) & _ & (_ & HpushC & HpopC)).
      unfold SizeT.in_range, SizeT.modulus in *.
      rewrite size_t_succ by (unfold SizeT.modulus; lia).
      rewrite Hpop, Zplus_mod_idemp_l, length_app. cbn [length].
      f_equal. lia.
Qed.

Lemma run_tracks ops tr w q :
  NamedSharedTrace.consistent tr ->
  NamedSharedTrace.pending tr = Fifo.unmatched q ->
  NamedSharedTrace.counter_pop_ tr =
    Z.of_nat (length (Fifo.matched q)) mod NamedSharedTrace.capacity tr ->
  let st' := NamedSharedTrace.run ops (tr, w) in
  let q' := Fifo.run (NamedSharedTrace.capacity tr) ops q in
  NamedSharedTrace.consistent st'.1 /\
  NamedSharedTrace.capacity st'.1 = NamedSharedTrace.capacity tr /\
  NamedSharedTrace.pending st'.1 = Fifo.unmatched q' /\
  NamedSharedTrace.counter_pop_ st'.1 =
    Z.of_nat (length (Fifo.matched q')) mod NamedSharedTrace.capacity tr /\
  cerr st'.2 = cerr w ++ fifo_warnings (NamedSharedTrace.capacity tr) ops q.
Proof.
  revert tr w q. induction ops as [|op ops IH]; intros tr w q Hcons Hpend Hpop.
  - cbv zeta. unfold NamedSharedTrace.run, Fifo.run.
    cbn [foldl fst snd fifo_warnings]. by rewrite app_nil_r.
  - cbv zeta. unfold NamedSharedTrace.run, Fifo.run. cbn [foldl fifo_warnings].
    fold (NamedSharedTrace.run ops (NamedSharedTrace.apply op (tr, w))).
    fold (Fifo.run (NamedSharedTrace.capacity tr) ops
            (Fifo.apply (NamedSharedTrace.capacity tr) op q)).
    destruct (apply_tracks op tr w q Hcons Hpend Hpop)
      as (Hcons1 & Hcap1 & Hpend1 & Hpop1 & Hcerr1).
    destruct (NamedSharedTrace.apply op (tr, w)) as [tr1 w1].
    cbn [fst snd] in *.
    remember (Fifo.apply (NamedSharedTrace.capacity tr) op q) as q1 eqn:Hq1.
    rewrite <- Hcap1 in Hpop1.
    specialize (IH tr1 w1 q1 Hcons1 Hpend1 Hpop1). cbv zeta in IH.
    rewrite Hcap1 in IH. destruct IH as (Hcons2 & Hcap2 & Hpend2 & Hpop2 & Hcerr2).
    do 4 (split; [done |]).
    rewrite Hcerr2, Hcerr1. cbn [fifo_warnings]. rewrite app_nil_r.
    by rewrite <- app_assoc.
Qed.

(** The warnings on [std::cerr] are those of the rejected calls, in their
    order: whatever calls a trace receives from its construction on, a
    [start()] writes its warning exactly when 100 starts are pending, an
    [end()] exactly when none is, and nothing else is written. *)
Theorem warnings_follow_rejections (session : nat) (name : string) (w : World)
    (ops : list NamedSharedTrace.Op) :
  cerr (NamedSharedTrace.run ops (NamedSharedTrace.create session name, w)).2 =
  cerr w ++ fifo_warnings TRACE_SIZE_INIT ops Fifo.empty.
Proof.
  destruct (consistent_create session name) as [Hcons Hcap].
  destruct (run_tracks ops _ w Fifo.empty Hcons eq_refl) as (_ & _ & _ & _ & Hcerr).
  { rewrite Hcap. reflexivity. }
  by rewrite Hcap in Hcerr.
Qed.

(** The cursors count the accepted calls: after any calls on a trace since
    its construction, [counter_pop_] is the number of accepted [end()] calls
    modulo 100, [counter_push_] the number of accepted [start()] calls modulo
    100, and [elements_] their difference. *)
Theorem cursors_count_accepted_calls (session : nat) (name : string) (w : World)
    (ops : list NamedSharedTrace.Op) :
  let tr := (NamedSharedTrace.run ops (NamedSharedTrace.create session name, w)).1 in
  let q := Fifo.run TRACE_SIZE_INIT ops Fifo.empty in
  let ends := Z.of_nat (length (Fifo.matched q)) in
  let starts := ends + Z.of_nat (length (Fifo.unmatched q)) in
  NamedSharedTrace.counter_pop_ tr = ends mod 100 /\
  NamedSharedTrace.counter_push_ tr = starts mod 100 /\
  NamedSharedTrace.elements_ tr = starts - ends.
Proof.
  cbv zeta.
  destruct (consistent_create session name) as [Hcons Hcap].
  destruct (run_tracks ops _ w Fifo.empty Hcons eq_refl)
    as (Hcons1 & Hcap1 & Hpend1 & Hpop1 & _).
  { rewrite Hcap. reflexivity. }
  rewrite Hcap in Hpend1, Hpop1, Hcap1.
  set (tr := (NamedSharedTrace.run ops (NamedSharedTrace.create session name, w)).1) in *.
  set (q := Fifo.run TRACE_SIZE_INIT ops Fifo.empty) in *.
  assert (NamedSharedTrace.elements_ tr = Z.of_nat (length (Fifo.unmatched q)))
    as Hel.
  { rewrite <- Hpend1, length_pending.
    destruct Hcons1 as (_ & Hb & _). unfold NamedSharedTrace.live_count_bounded in Hb.
    lia. }
  change TRACE_SIZE_INIT with 100 in *.
  split; [done |]. split; [| lia].
  destruct Hcons1 as (_ & _ & (Hpush & _)).
  rewrite Hpush, Hcap1, Hpop1, Hel. by rewrite Zplus_mod_idemp_l.
Qed.

(** ** TraceRegistry *)

(** Registering an identifier binds it to a new trace with nothing pending,
    whatever was bound to it before: a second registration discards the first
    trace with its pending starts; the other identifiers keep their traces. *)
Theorem registerTrace_binds_fresh_trace (id : string) (session : nat)
    (r : TraceRegistry.t) :
  TraceRegistry.traces_ (TraceRegistry.registerTrace id session r) !! id =
    Some (NamedSharedTrace.create session id) /\
  NamedSharedTrace.pending (NamedSharedTrace.create session id) = [] /\
  (forall other, other <> id ->
     TraceRegistry.traces_ (TraceRegistry.registerTrace id session r) !! other =
     TraceRegistry.traces_ r !! other) /\
  (forall session' now w,
     TraceRegistry.registerTrace id session
       (TraceRegistry.startTrace id now
          (TraceRegistry.registerTrace id session' r) w).1 =
     TraceRegistry.registerTrace id session r).
Proof.
  split; [| split; [| split]].
  - unfold TraceRegistry.registerTrace. cbn. by rewrite lookup_insert_eq.
  - reflexivity.
  - intros other Hne. unfold TraceRegistry.registerTrace. cbn.
    by rewrite lookup_insert_ne.
  - intros session' now w.
    unfold TraceRegistry.startTrace, TraceRegistry.registerTrace.
    cbn [TraceRegistry.traces_]. rewrite lookup_insert_eq.
    destruct (NamedSharedTrace.start now (NamedSharedTrace.create session' id) w)
      as [tr' w'].
    cbn [fst TraceRegistry.traces_]. by rewrite !insert_insert_eq.
Qed.

Lemma registry_apply_bound id op r w tr :
  TraceRegistry.traces_ r !! id = Some tr ->
  registry_apply id op (r, w) =
  ({| TraceRegistry.traces_ :=
        <[id := (NamedSharedTrace.apply op (tr, w)).1]> (TraceRegistry.traces_ r) |},
   (NamedSharedTrace.apply op (tr, w)).2).
Proof.
  intros Hid. destruct op as [now | now];
    cbn [registry_apply NamedSharedTrace.apply fst snd];
    unfold TraceRegistry.startTrace, TraceRegistry.endTrace; rewrite Hid.
  - by destruct (NamedSharedTrace.start now tr w).
  - by destruct (NamedSharedTrace.end_ now tr w).
Qed.

Lemma registry_run_bound (id : string)
    (ops : list NamedSharedTrace.Op) (r : TraceRegistry.t) (w : World)
    (tr : NamedSharedTrace.t) :
  TraceRegistry.traces_ r !! id = Some tr ->
  let st := NamedSharedTrace.run ops (tr, w) in
  let rst := registry_run id ops (r, w) in
  TraceRegistry.traces_ rst.1 !! id = Some st.1 /\
  rst.2 = st.2 /\
  (forall other, other <> id ->
     TraceRegistry.traces_ rst.1 !! other = TraceRegistry.traces_ r !! other).
Proof.
  cbv zeta. revert r w tr. induction ops as [|op ops IH]; intros r w tr Hid.
  - cbn. by repeat split.
  - unfold registry_run, NamedSharedTrace.run. cbn [foldl].
    fold (NamedSharedTrace.run ops (NamedSharedTrace.apply op (tr, w))).
    fold (registry_run id ops (registry_apply id op (r, w))).
    rewrite (registry_apply_bound _ _ _ _ _ Hid).
    destruct (NamedSharedTrace.apply op (tr, w)) as [tr1 w1]. cbn [fst snd].
    destruct (IH {| TraceRegistry.traces_ := <[id := tr1]> (TraceRegistry.traces_ r) |}
                w1 tr1) as (Hbound & Hworld & Hother).
    { cbn. by rewrite lookup_insert_eq. }
    split; [done |]. split; [done |].
    intros other Hne. rewrite Hother by done. cbn. by rewrite lookup_insert_ne.
Qed.

(** Calls through the registry on a registered identifier are the calls on
    its trace: after any [startTrace(id)] and [endTrace(id)] calls the
    identifier is bound to the trace as the same [start()] and [end()] calls
    leave it, the world is as they leave it, and the other identifiers keep
    their traces. *)
Theorem registry_calls_reach_the_trace (id : string)
    (ops : list NamedSharedTrace.Op) (r : TraceRegistry.t) (w : World)
    (tr : NamedSharedTrace.t) :
  TraceRegistry.traces_ r !! id = Some tr ->
  let st := NamedSharedTrace.run ops (tr, w) in
  let rst := registry_run id ops (r, w) in
  TraceRegistry.traces_ rst.1 !! id = Some st.1 /\
  rst.2 = st.2 /\
  (forall other, other <> id ->
     TraceRegistry.traces_ rst.1 !! other = TraceRegistry.traces_ r !! other).
Proof.
  intros Hid. cbv zeta.
  destruct (registry_run_bound id ops r w tr Hid) as (Hbound & Hworld & Hother).
  split; [exact Hbound |]. split; [exact Hworld |].
  intros other Hne. by apply Hother.
Qed.

Lemma registry_calls_reach_the_trace_witness :
  let w := {| sessions := {[ 0%nat := TraceSession.create "test_trace_registry.log" 0 ]};
              cerr := [] |} in
  let r := TraceRegistry.registerTrace "trace1" 0 TraceRegistry.instance in
  (registry_run "trace1" [NamedSharedTrace.Start 10; NamedSharedTrace.End 15] (r, w)).2 =
  (NamedSharedTrace.run [NamedSharedTrace.Start 10; NamedSharedTrace.End 15]
     (NamedSharedTrace.create 0 "trace1", w)).2.
Proof.
  cbv zeta.
  refine (proj1 (proj2 (registry_calls_reach_the_trace "trace1"
                          [NamedSharedTrace.Start 10; NamedSharedTrace.End 15]
                          _ _ (NamedSharedTrace.create 0 "trace1") _))).
  vm_compute. reflexivity.
Defined.

(** A registered identifier end to end: after [registerTrace(id, session)],
    whatever [startTrace(id)] and [endTrace(id)] calls follow, the session
    has received exactly the events that the queue of the specification
    matches, oldest start first, each under the name [id]. *)
Theorem registered_trace_submits_matched_pairs (id : string) (session : nat)
    (r : TraceRegistry.t) (w : World) (reference : Z) (base : list TraceEvent)
    (ops : list NamedSharedTrace.Op) :
  session_queue w session reference base ->
  session_queue
    (registry_run id ops (TraceRegistry.registerTrace id session r, w)).2
    session reference
    (base ++ (event_of reference id
                <$> Fifo.matched (Fifo.run TRACE_SIZE_INIT ops Fifo.empty))).
Proof.
  intros Hsess.
  destruct (registry_run_bound id ops
              (TraceRegistry.registerTrace id session r) w
              (NamedSharedTrace.create session id)) as (_ & -> & _).
  { unfold TraceRegistry.registerTrace. cbn. by rewrite lookup_insert_eq. }
  destruct (consistent_create session id) as [Hcons Hcap].
  destruct (run_refines ops (NamedSharedTrace.create session id) w Fifo.empty
              reference base Hcons eq_refl) as (_ & _ & _ & _ & _ & Hq).
  { cbn. by rewrite app_nil_r. }
  by rewrite Hcap in Hq.
Qed.

Lemma registered_trace_submits_matched_pairs_witness :
  let w := {| sessions := {[ 0%nat := TraceSession.create "test_trace_registry.log" 0 ]};
              cerr := [] |} in
  session_queue
    (registry_run "x" [NamedSharedTrace.Start 10; NamedSharedTrace.End 15]
       (TraceRegistry.registerTrace "x" 0 TraceRegistry.instance, w)).2
    0 0 [ {| trace_name := "x"; start_time := 10; end_time := 15 |} ].
Proof.
  cbv zeta.
  refine (registered_trace_submits_matched_pairs "x" 0 TraceRegistry.instance
            _ 0 [] [NamedSharedTrace.Start 10; NamedSharedTrace.End 15] _).
  exists (TraceSession.create "test_trace_registry.log" 0).
  split; [vm_compute; reflexivity |]. split; reflexivity.
Defined.

Lemma registerTrace_binds_fresh_trace_witness :
  let r := TraceRegistry.registerTrace "trace1" 0 TraceRegistry.instance in
  TraceRegistry.traces_ (TraceRegistry.registerTrace "trace2" 0 r) !! "trace1" =
  Some (NamedSharedTrace.create 0 "trace1").
Proof.
  cbv zeta.
  rewrite (proj1 (proj2 (proj2 (registerTrace_binds_fresh_trace "trace2" 0 _)))
             "trace1" ltac:(discriminate)).
  exact (proj1 (registerTrace_binds_fresh_trace "trace1" 0 TraceRegistry.instance)).
Defined.

Lemma shared_trace_touches_only_its_session_witness :
  let w := {| sessions := {[ 0%nat := TraceSession.create "a.log" 0;
                             1%nat := TraceSession.create "b.log" 7 ]};
              cerr := [] |} in
  sessions
    (NamedSharedTrace.run [NamedSharedTrace.Start 10; NamedSharedTrace.End 15]
       (NamedSharedTrace.create 0 "shared", w)).2 !! 1%nat =
  Some (TraceSession.create "b.log" 7).
Proof.
  cbv zeta.
  rewrite (proj2 (proj2 (proj2 (shared_trace_touches_only_its_session
                                  [NamedSharedTrace.Start 10; NamedSharedTrace.End 15]
                                  (NamedSharedTrace.create 0 "shared") _)))
             1%nat ltac:(discriminate)).
  vm_compute. reflexivity.
Defined.

(** ** The offsets of an event *)

Lemma int64_wrap_shift x k : Int64.wrap (x + k * 2 ^ 64) = Int64.wrap x.
Proof.
  unfold Int64.wrap.
  replace (x + k * 2 ^ 64 + 2 ^ 63) with (x + 2 ^ 63 + k * 2 ^ 64) by lia.
  by rewrite Z_mod_plus_full.
Qed.

Lemma int64_wrap_multiple x : exists k, Int64.wrap x = x + k * 2 ^ 64.
Proof.
  exists (- ((x + 2 ^ 63) / 2 ^ 64)). unfold Int64.wrap.
  rewrite Z.mod_eq by lia. lia.
Qed.

(** The duration that an event records does not depend on the instant at
    which its session was created: the 64-bit difference of the two stored
    offsets is the 64-bit difference of the two instants, even where an
    offset has left the range; it is their exact difference when that fits
    in 64 bits. *)
Theorem recorded_duration_independent_of_reference (name : string) (t0 t1 : Z)
    (s : TraceSession.t) :
  let e := TraceSession.make_event s name t0 t1 in
  Int64.sub (end_time e) (start_time e) = Int64.sub t1 t0 /\
  (Int64.in_range (t1 - t0) -> Int64.sub (end_time e) (start_time e) = t1 - t0).
Proof.
  cbv zeta. cbn [TraceSession.make_event end_time start_time].
  assert (Int64.sub (Int64.sub t1 (TraceSession.session_start_time_ s))
            (Int64.sub t0 (TraceSession.session_start_time_ s)) = Int64.sub t1 t0)
    as Heq.
  { unfold Int64.sub.
    destruct (int64_wrap_multiple (t1 - TraceSession.session_start_time_ s))
      as [k1 ->].
    destruct (int64_wrap_multiple (t0 - TraceSession.session_start_time_ s))
      as [k0 ->].
    replace (t1 - TraceSession.session_start_time_ s + k1 * 2 ^ 64 -
             (t0 - TraceSession.session_start_time_ s + k0 * 2 ^ 64))
      with (t1 - t0 + (k1 - k0) * 2 ^ 64) by lia.
    apply int64_wrap_shift. }
  split; [exact Heq |].
  intros Hrange. rewrite Heq. unfold Int64.sub. by apply int64_wrap_in_range.
Qed.

Lemma recorded_duration_independent_of_reference_witness :
  let e := TraceSession.make_event (TraceSession.create "trace.log" 1000) "f" 1010 1050 in
  Int64.sub (end_time e) (start_time e) = 40.
Proof.
  cbv zeta.
  refine (proj2 (recorded_duration_independent_of_reference "f" 1010 1050
                   (TraceSession.create "trace.log" 1000)) _).
  unfold Int64.in_range, Int64.min_signed, Int64.max_signed. simpl. lia.
Defined.

(** ** Start and end in turn *)

Lemma fifo_run_pairs cap pairs q :
  0 < cap ->
  Fifo.unmatched q = [] ->
  Fifo.run cap (pair_ops pairs) q =
    {| Fifo.unmatched := []; Fifo.matched := Fifo.matched q ++ pairs |} /\
  fifo_warnings cap (pair_ops pairs) q = [].
Proof.
  intros Hcap. revert q. induction pairs as [|[a b] pairs IH]; intros [u m] Hu;
    cbn [Fifo.unmatched Fifo.matched] in *; subst u.
  - cbn. by rewrite app_nil_r.
  - cbn [pair_ops fifo_warnings Fifo.apply Fifo.unmatched Fifo.matched length].
    unfold Fifo.run. cbn [foldl Fifo.apply Fifo.unmatched Fifo.matched length].
    rewrite (proj2 (Z.ltb_lt _ _)) by (cbn; lia).
    cbn [Fifo.unmatched Fifo.matched app].
    fold (Fifo.run cap (pair_ops pairs)
            {| Fifo.unmatched := []; Fifo.matched := m ++ [(a, b)] |}).
    destruct (IH {| Fifo.unmatched := []; Fifo.matched := m ++ [(a, b)] |} eq_refl)
      as [Hrun Hwarn].
    rewrite Hrun, Hwarn. cbn [Fifo.matched]. by rewrite <- app_assoc.
Qed.

(** Any number of [start()]/[end()] pairs in turn, also more than the
    capacity: every pair is submitted as one event, in order, nothing is
    rejected and nothing stays pending; the cursors just go round the ring. *)
Theorem pairs_in_turn_never_overflow (session : nat) (name : string) (w : World)
    (reference : Z) (base : list TraceEvent) (pairs : list (Z * Z)) :
  session_queue w session reference base ->
  let st := NamedSharedTrace.run (pair_ops pairs)
              (NamedSharedTrace.create session name, w) in
  session_queue st.2 session reference (base ++ (event_of reference name <$> pairs)) /\
  cerr st.2 = cerr w /\
  NamedSharedTrace.elements_ st.1 = 0 /\
  NamedSharedTrace.counter_pop_ st.1 = Z.of_nat (length pairs) mod 100 /\
  NamedSharedTrace.counter_push_ st.1 = Z.of_nat (length pairs) mod 100.
Proof.
  intros Hsess. cbv zeta.
  destruct (consistent_create session name) as [Hcons Hcap].
  destruct (fifo_run_pairs TRACE_SIZE_INIT pairs Fifo.empty) as [Hfifo Hwarn];
    [done | done |].
  destruct (run_refines (pair_ops pairs) (NamedSharedTrace.create session name) w
              Fifo.empty reference base Hcons eq_refl)
    as (_ & _ & _ & _ & _ & Hq).
  { cbn. by rewrite app_nil_r. }
  destruct (run_tracks (pair_ops pairs) (NamedSharedTrace.create session name) w
              Fifo.empty Hcons eq_refl)
    as (Hcons1 & Hcap1 & Hpend1 & Hpop1 & Hcerr1).
  { rewrite Hcap. reflexivity. }
  rewrite Hcap in *. rewrite Hfifo in *. rewrite Hwarn in Hcerr1.
  cbn [Fifo.matched Fifo.unmatched Fifo.empty app] in *.
  rewrite app_nil_r in Hcerr1.
  set (tr := (NamedSharedTrace.run (pair_ops pairs)
                (NamedSharedTrace.create session name, w)).1) in *.
  assert (NamedSharedTrace.elements_ tr = 0) as Hel.
  { pose proof (length_pending tr) as Hlen. rewrite Hpend1 in Hlen.
    destruct Hcons1 as (_ & Hb & _). unfold NamedSharedTrace.live_count_bounded in Hb.
    cbn [length] in Hlen. lia. }
  change TRACE_SIZE_INIT with 100 in *.
  split; [done |]. split; [done |]. split; [done |]. split; [done |].
  destruct Hcons1 as (_ & _ & (Hpush & _)).
  rewrite Hpush, Hcap1, Hpop1, Hel, Z.add_0_r. by rewrite Zmod_mod.
Qed.

Lemma pairs_in_turn_never_overflow_witness :
  let w := {| sessions := {[ 0%nat := TraceSession.create "test_over_capacity.log" 0 ]};
              cerr := [] |} in
  let pairs := (fun i => (Z.of_nat i, Z.of_nat i + 1)) <$> seq 0 105 in
  let st := NamedSharedTrace.run (pair_ops pairs)
              (NamedSharedTrace.create 0 "overCapacityFunction", w) in
  cerr st.2 = [] /\ NamedSharedTrace.counter_pop_ st.1 = 5.
Proof.
  cbv zeta.
  destruct (pairs_in_turn_never_overflow 0 "overCapacityFunction"
              {| sessions := {[ 0%nat := TraceSession.create "test_over_capacity.log" 0 ]};
                 cerr := [] |} 0 []
              ((fun i => (Z.of_nat i, Z.of_nat i + 1)) <$> seq 0 105))
    as (_ & Hcerr & _ & Hpop & _).
  - exists (TraceSession.create "test_over_capacity.log" 0).
    split; [vm_compute; reflexivity |]. split; reflexivity.
  - split; [exact Hcerr | exact Hpop].
Defined.

